(** * mubsub: the Channel of a capped-collection publish/subscribe bus

    A shallow embedding of [lib/channel.js].  The Channel is asynchronous
    JavaScript: every function body and every promise reaction runs to
    completion, and the only points where other work interleaves are the
    completions of driver I/O (createCollection, insertOne, cursor.close),
    the events of the tailable cursor ('data', 'close') and the calls the
    user makes.  The embedding therefore has

    - a [world]: the fields of [this], the connection, the log store, and
      the promises that are still pending, written out as data;
    - one function per source function or callback, acting on the world;
    - a labelled step function [step]: one label per turn of the event
      loop, followed by [settle], which runs the promise reactions that the
      turn enabled (the microtask queue).

    The MongoDB driver and Node's EventEmitter are not part of the
    repository; they are modelled by the interface the channel consumes:

    - a log of documents in natural order with store-assigned increasing
      [_id]s; [find(...).toArray()] is the array of the matching documents,
      as [latest] indexes it;
    - a tailable cursor that returns the documents after a position in that
      order, emits 'close' once, when its stream ends (by itself or by
      [cursor.close()]), and whose [close()] resolves in a later turn;
    - a name-keyed multicast emitter whose listeners return normally and
      which throws on an 'error' event that has no listener.

    The calls of the user ([subscribe], [publish], [close]) are turns of
    their own. *)

From Stdlib Require Import ZArith Lia.
From stdpp Require Import base option list strings gmap numbers.

Local Open Scope string_scope.
Local Open Scope list_scope.
Local Open Scope Z_scope.

(** ** JavaScript values of the options object *)

Inductive jsval :=
| JUndefined
| JNull
| JBool (b : bool)
| JNum (n : Z)
| JStr (s : string).

Definition truthy (v : jsval) : bool :=
  match v with
  | JUndefined | JNull => false
  | JBool b => b
  | JNum n => negb (n =? 0)
  | JStr s => negb (String.eqb s "")
  end.

(** [a || b] *)
Definition js_or (a b : jsval) : jsval := if truthy a then a else b.

(** [c ? a : b] *)
Definition js_cond (c a b : jsval) : jsval := if truthy c then a else b.

Record Options := {
  opt_size : jsval;
  opt_max : jsval;
  opt_retryInterval : jsval;
  opt_recreate : jsval
}.

(** [options = {}] *)
Definition no_options : Options :=
  {| opt_size := JUndefined; opt_max := JUndefined;
     opt_retryInterval := JUndefined; opt_recreate := JUndefined |}.

(** ** Documents of the capped collection *)

Record doc := {
  _id : Z;
  event : option string;
  message : option string;
  dummy : bool
}.

Definition log := list doc.

(** [if (doc.event)]: the field is present and not the empty string. *)
Definition has_event (d : doc) : bool :=
  match event d with
  | Some n => negb (String.eqb n "")
  | None => false
  end.

(** The document [insertOne] is given, before the store assigns [_id]. *)
Record newdoc := {
  n_event : option string;
  n_message : option string;
  n_dummy : bool
}.

(** [{ event: event, message: message }] *)
Definition event_doc (ev msg : string) : newdoc :=
  {| n_event := Some ev; n_message := Some msg; n_dummy := false |}.

(** [{ 'dummy': true }] *)
Definition dummy_doc : newdoc :=
  {| n_event := None; n_message := None; n_dummy := true |}.

Definition stored (i : Z) (n : newdoc) : doc :=
  {| _id := i; event := n_event n; message := n_message n; dummy := n_dummy n |}.

(** ** The log store *)

Record Store := {
  logs : gmap string log;
  next_id : Z
}.

Definition log_of (nm : string) (s : Store) : log := default [] (logs s !! nm).

(** A successful [insertOne]: the document is appended under a fresh,
    larger [_id]. *)
Definition store_insert (nm : string) (n : newdoc) (s : Store) : Store * doc :=
  let d := stored (next_id s) n in
  ({| logs := <[nm := log_of nm s ++ [d]]> (logs s); next_id := next_id s + 1 |}, d).

(** An [insertOne] that is not stored still consumes the [_id] it echoes. *)
Definition store_skip (n : newdoc) (s : Store) : Store * doc :=
  ({| logs := logs s; next_id := next_id s + 1 |}, stored (next_id s) n).

(** The capped collection evicts its oldest document. *)
Definition store_evict (nm : string) (s : Store) : Store :=
  {| logs := <[nm := tail (log_of nm s)]> (logs s); next_id := next_id s |}.

Definition store_drop (nm : string) (s : Store) : Store :=
  {| logs := delete nm (logs s); next_id := next_id s |}.

(** How the driver answers an [insertOne]. *)
Inductive write_result :=
| WriteOk          (* stored, [res.result.ok] truthy *)
| WriteNotOk       (* resolved with [res.result.ok] falsy, nothing stored *)
| WriteRejected.   (* the promise rejects *)

(** [find(q).sort({$natural: -1}).limit(1).toArray()[0]] with [q] either
    [null] or [{_id: latest._id}]: the last matching document in natural
    order, [undefined] when there is none. *)
Definition find_newest (q : option doc) (lg : log) : option doc :=
  list.last (List.filter
          (fun d => match q with Some l => _id d =? _id l | None => true end) lg).

(** The next document of a tailable cursor on [{_id: {$gt: p}}]. *)
Definition cursor_next (p : Z) (lg : log) : option doc :=
  head (List.filter (fun d => p <? _id d) lg).

(** ** The event emitter *)

(** What a listener is called with. *)
Inductive arg :=
| AMsg (m : option string)   (* a payload, [doc.message] *)
| ADoc (d : doc)             (* a raw document *)
| AErr (e : string)          (* an [Error] *)
| AColl (k : string).        (* a collection handle *)

(** The listeners registered on the channel: the callbacks of the user
    ([on], through [subscribe]) and the [once] resolvers that [latest] and
    [ready] put on 'collection' and 'ready'. *)
Inductive listener :=
| LSub (cb : nat)
| LOnceCollection (run : nat)   (* resolve of the promise of [latest], run [run] *)
| LOnceReady (p : nat).         (* resolve of the promise of [ready], publish [p] *)

#[global] Instance listener_eq_dec : EqDecision listener.
Proof. solve_decision. Defined.

(** A call of a user callback. *)
Record obs := { o_cb : nat; o_event : string; o_arg : arg }.

Definition is_once (l : listener) : bool :=
  match l with LSub _ => false | _ => true end.

Definition on_event (ev : string) (e : string * listener) : bool :=
  String.eqb (fst e) ev.

(** The listeners an [emit(ev, ...)] calls, in registration order. *)
Definition listeners_of (ev : string) (ls : list (string * listener)) : list listener :=
  snd <$> List.filter (on_event ev) ls.

(** The callbacks [subscribe(ev, cb)] registered. *)
Fixpoint subscribers (ls : list listener) : list nat :=
  match ls with
  | [] => []
  | LSub cb :: r => cb :: subscribers r
  | _ :: r => subscribers r
  end.

(** [emit('error', ...)] throws when no listener is registered for 'error'. *)
Definition throws (ev : string) (ls : list (string * listener)) : bool :=
  String.eqb ev "error" &&
  match listeners_of "error" ls with [] => true | _ => false end.

(** After [emit(ev, ...)] the [once] listeners of [ev] are gone. *)
Definition drop_once (ev : string) (ls : list (string * listener)) : list (string * listener) :=
  List.filter (fun e => negb (on_event ev e && is_once (snd e))) ls.

(** [removeListener(ev, cb)] removes the most recently added instance. *)
Fixpoint remove_first (ev : string) (cb : nat) (ls : list (string * listener)) :=
  match ls with
  | [] => []
  | (e, LSub c) :: r =>
      if String.eqb e ev && Nat.eqb c cb then r else (e, LSub c) :: remove_first ev cb r
  | x :: r => x :: remove_first ev cb r
  end.

Definition removeListener (ev : string) (cb : nat) (ls : list (string * listener)) :=
  rev (remove_first ev cb (rev ls)).

(** ** Pending promises *)

(** The promise of [latest]. *)
Inductive latest_st :=
| LWaitCollection        (* [once('collection', resolve)] is registered *)
| LQuery                 (* resolved; the [find] reaction has not run yet *)
| LInsert (k : string)   (* [insertOne({dummy: true})] on [k] is in flight *)
| LDone (d : doc)        (* fulfilled with the anchor *)
| LFail.                 (* rejected *)

(** The promise of [close]. *)
Inductive close_st :=
| CWait (c : nat)        (* [cursor.close()] of cursor [c] is in flight *)
| CDone.

(** One call of [listen]: the [Promise.all] of [latest] and [close], and
    whether its reaction has run. *)
Record listen_run := {
  l_arg : option doc;
  l_latest : latest_st;
  l_close : close_st;
  l_fin : bool
}.

(** The promise of [publish]. *)
Inductive pub_st :=
| PWait                  (* [once('ready', resolve)] is registered *)
| PReady                 (* [ready] resolved; the [insertOne] reaction has not run yet *)
| PInsert (k : string)   (* [insertOne] on [k] is in flight *)
| PResolved (d : doc)
| PRejected.

Record pub := {
  p_event : string;
  p_message : string;
  p_state : pub_st
}.

(** A tailable cursor with the handlers [listen] put on it.  [c_anchor] is
    the [_latest] that the handlers close over. *)
Record cursor_rec := {
  c_coll : string;
  c_anchor : doc;
  c_pos : Z;
  c_alive : bool
}.

(** ** The world *)

(** The fields of [this]. *)
Record ChannelState := {
  collectionOptions_size : jsval;
  tailableRetryInterval : jsval;
  recreate : jsval;
  closed : bool;
  name : string;
  collection : option string;
  cursor : option nat;
  listeners : list (string * listener)
}.

Record Connection := {
  db : bool;
  destroyed : bool;
  connect_waiters : nat      (* [once('connect', create)] *)
}.

Record world := {
  chan : ChannelState;
  conn : Connection;
  store : Store;
  creating : nat;            (* [createCollection] calls in flight *)
  cursors : list cursor_rec;
  listens : list listen_run;
  closes : list close_st;    (* the promises of the user's [close] calls *)
  pubs : list pub;
  trace : list obs
}.

(** Field updates. *)

Definition set_closed (b : bool) (c : ChannelState) : ChannelState :=
  {| collectionOptions_size := collectionOptions_size c;
     tailableRetryInterval := tailableRetryInterval c;
     recreate := recreate c; closed := b; name := name c;
     collection := collection c; cursor := cursor c; listeners := listeners c |}.

Definition set_collection (k : option string) (c : ChannelState) : ChannelState :=
  {| collectionOptions_size := collectionOptions_size c;
     tailableRetryInterval := tailableRetryInterval c;
     recreate := recreate c; closed := closed c; name := name c;
     collection := k; cursor := cursor c; listeners := listeners c |}.

Definition set_cursor (k : option nat) (c : ChannelState) : ChannelState :=
  {| collectionOptions_size := collectionOptions_size c;
     tailableRetryInterval := tailableRetryInterval c;
     recreate := recreate c; closed := closed c; name := name c;
     collection := collection c; cursor := k; listeners := listeners c |}.

Definition set_listeners (ls : list (string * listener)) (c : ChannelState) : ChannelState :=
  {| collectionOptions_size := collectionOptions_size c;
     tailableRetryInterval := tailableRetryInterval c;
     recreate := recreate c; closed := closed c; name := name c;
     collection := collection c; cursor := cursor c; listeners := ls |}.

Definition with_chan (f : ChannelState -> ChannelState) (w : world) : world :=
  {| chan := f (chan w); conn := conn w; store := store w; creating := creating w;
     cursors := cursors w; listens := listens w; closes := closes w;
     pubs := pubs w; trace := trace w |}.

Definition with_conn (c : Connection) (w : world) : world :=
  {| chan := chan w; conn := c; store := store w; creating := creating w;
     cursors := cursors w; listens := listens w; closes := closes w;
     pubs := pubs w; trace := trace w |}.

Definition with_store (s : Store) (w : world) : world :=
  {| chan := chan w; conn := conn w; store := s; creating := creating w;
     cursors := cursors w; listens := listens w; closes := closes w;
     pubs := pubs w; trace := trace w |}.

Definition with_creating (n : nat) (w : world) : world :=
  {| chan := chan w; conn := conn w; store := store w; creating := n;
     cursors := cursors w; listens := listens w; closes := closes w;
     pubs := pubs w; trace := trace w |}.

Definition with_cursors (cs : list cursor_rec) (w : world) : world :=
  {| chan := chan w; conn := conn w; store := store w; creating := creating w;
     cursors := cs; listens := listens w; closes := closes w;
     pubs := pubs w; trace := trace w |}.

Definition with_listens (ls : list listen_run) (w : world) : world :=
  {| chan := chan w; conn := conn w; store := store w; creating := creating w;
     cursors := cursors w; listens := ls; closes := closes w;
     pubs := pubs w; trace := trace w |}.

Definition with_closes (cs : list close_st) (w : world) : world :=
  {| chan := chan w; conn := conn w; store := store w; creating := creating w;
     cursors := cursors w; listens := listens w; closes := cs;
     pubs := pubs w; trace := trace w |}.

Definition with_pubs (ps : list pub) (w : world) : world :=
  {| chan := chan w; conn := conn w; store := store w; creating := creating w;
     cursors := cursors w; listens := listens w; closes := closes w;
     pubs := ps; trace := trace w |}.

Definition with_trace (t : list obs) (w : world) : world :=
  {| chan := chan w; conn := conn w; store := store w; creating := creating w;
     cursors := cursors w; listens := listens w; closes := closes w;
     pubs := pubs w; trace := t |}.

Definition set_latest (s : latest_st) (r : listen_run) : listen_run :=
  {| l_arg := l_arg r; l_latest := s; l_close := l_close r; l_fin := l_fin r |}.

Definition set_close (s : close_st) (r : listen_run) : listen_run :=
  {| l_arg := l_arg r; l_latest := l_latest r; l_close := s; l_fin := l_fin r |}.

Definition set_fin (r : listen_run) : listen_run :=
  {| l_arg := l_arg r; l_latest := l_latest r; l_close := l_close r; l_fin := true |}.

Definition set_state (s : pub_st) (p : pub) : pub :=
  {| p_event := p_event p; p_message := p_message p; p_state := s |}.

Definition set_pos (z : Z) (c : cursor_rec) : cursor_rec :=
  {| c_coll := c_coll c; c_anchor := c_anchor c; c_pos := z; c_alive := c_alive c |}.

Definition set_dead (c : cursor_rec) : cursor_rec :=
  {| c_coll := c_coll c; c_anchor := c_anchor c; c_pos := c_pos c; c_alive := false |}.

(** ** emit, on, once *)

(** [resolve] of the promise of [latest]. *)
Definition resolve_latest (r : listen_run) : listen_run :=
  match l_latest r with
  | LWaitCollection => set_latest LQuery r
  | _ => r
  end.

(** [resolve] of the promise of [ready]. *)
Definition resolve_ready (p : pub) : pub :=
  match p_state p with
  | PWait => set_state PReady p
  | _ => p
  end.

Definition fire (ev : string) (a : arg) (w : world) (l : listener) : world :=
  match l with
  | LSub cb => with_trace (trace w ++ [{| o_cb := cb; o_event := ev; o_arg := a |}]) w
  | LOnceCollection r => with_listens (alter resolve_latest r (listens w)) w
  | LOnceReady p => with_pubs (alter resolve_ready p (pubs w)) w
  end.

(** [this.emit(ev, a)] *)
Definition emit (ev : string) (a : arg) (w : world) : world :=
  foldl (fire ev a)
        (with_chan (set_listeners (drop_once ev (listeners (chan w)))) w)
        (listeners_of ev (listeners (chan w))).

Definition add_listener (ev : string) (l : listener) (w : world) : world :=
  with_chan (fun c => set_listeners (listeners c ++ [(ev, l)]) c) w.

(** ** The functions of the channel *)

(** [name || 'mubsub'], for a [name] that is a string or left out. *)
Definition name_or_default (nm : option string) : string :=
  match nm with
  | Some s => if String.eqb s "" then "mubsub" else s
  | None => "mubsub"
  end.

(** The field assignments of [function Channel(connection, name, options)]. *)
Definition Channel_fields (nm : option string) (options : Options) : ChannelState :=
  {| collectionOptions_size := js_or (opt_size options) (JNum (1024 * 1024 * 5));
     tailableRetryInterval := js_or (opt_retryInterval options) (JNum 200);
     recreate := js_cond (opt_recreate options) (opt_recreate options) (JBool true);
     closed := true;
     name := name_or_default nm;
     collection := None;
     cursor := None;
     listeners := [] |}.

(** [Channel.prototype.create]: ask for the collection now, or once the
    connection has connected. *)
Definition create (w : world) : world :=
  if db (conn w)
  then with_creating (S (creating w)) w
  else with_conn {| db := db (conn w); destroyed := destroyed (conn w);
                    connect_waiters := S (connect_waiters (conn w)) |} w.

(** The callback [create] gives to [createCollection]. *)
Definition create_callback (err : option string) (w : world) : world :=
  match err with
  | Some msg =>
      if String.eqb msg "collection already exists" then create w
      else if throws "error" (listeners (chan w)) then w
      else emit "error" (AErr msg) w
  | None =>
      let k := name (chan w) in
      emit "collection" (AColl k) (with_chan (set_collection (Some k)) w)
  end.

(** [Channel.prototype.close]: the flag is set at once; the reaction that
    drops the references is [close_then]. *)
Definition close (w : world) : world * close_st :=
  let w1 := with_chan (set_closed true) w in
  match cursor (chan w1) with
  | Some c => (w1, CWait c)
  | None => (w1, CDone)
  end.

Definition close_then (w : world) : world :=
  with_chan (fun c => set_cursor None (set_collection None c)) w.

(** The executor of the promise of [Channel.prototype.latest], for the
    [listen] call number [r]. *)
Definition latest (r : nat) (w : world) : world * latest_st :=
  match collection (chan w) with
  | Some _ => (w, LQuery)
  | None => (add_listener "collection" (LOnceCollection r) w, LWaitCollection)
  end.

(** The two reactions of [latest]: the query, then the choice between the
    document found and the insertion of a dummy.  [self.collection] is read
    when they run. *)
Definition latest_then (arg : option doc) (w : world) : latest_st :=
  match collection (chan w) with
  | None => LFail
  | Some k =>
      match find_newest arg (log_of k (store w)) with
      | Some d => LDone d
      | None => LInsert k
      end
  end.

(** The reaction to the dummy's [insertOne]. *)
Definition latest_inserted (k : string) (o : write_result) (w : world) : world * latest_st :=
  match o with
  | WriteOk =>
      let '(s, d) := store_insert k dummy_doc (store w) in (with_store s w, LDone d)
  | WriteNotOk =>
      let '(s, _) := store_skip dummy_doc (store w) in (with_store s w, LFail)
  | WriteRejected => (w, LFail)
  end.

(** [Channel.prototype.listen]: [latest] is called first, then [close]. *)
Definition listen (arg : option doc) (w : world) : world :=
  let r := length (listens w) in
  let '(w1, ls) := latest r w in
  let '(w2, cs) := close w1 in
  with_listens
    (listens w2 ++ [{| l_arg := arg; l_latest := ls; l_close := cs; l_fin := false |}]) w2.

(** The 'close' handler of a cursor opened with anchor [_latest].  When
    the [emit] throws, the handler ends there. *)
Definition on_close (_latest : doc) (w : world) : world :=
  if closed (chan w) || destroyed (conn w) then w
  else if throws "error" (listeners (chan w)) then w
  else
    let w1 := emit "error" (AErr "Mubsub: broken cursor.") w in
    if truthy (recreate (chan w1)) then listen (Some _latest) (create w1) else w1.

(** The 'data' handler.  When the first [emit] throws, the handler ends
    there. *)
Definition on_data (d : doc) (w : world) : world :=
  if closed (chan w) || destroyed (conn w) then w
  else
    match event d with
    | Some ev =>
        if has_event d
        then
          if throws ev (listeners (chan w)) then w
          else emit "document" (ADoc d)
                 (emit "message" (AMsg (message d)) (emit ev (AMsg (message d)) w))
        else emit "document" (ADoc d) w
    | None => emit "document" (ADoc d) w
    end.

(** The reaction of [listen] to its [Promise.all], for the anchor [_latest]:
    [this.collection.find] throws when the reference is [null]. *)
Definition listen_then (_latest : doc) (w : world) : world :=
  let w1 := with_chan (set_closed false) w in
  match collection (chan w1) with
  | None => w1
  | Some k =>
      let c := length (cursors w1) in
      let w2 := with_cursors
                  (cursors w1 ++ [{| c_coll := k; c_anchor := _latest;
                                     c_pos := _id _latest; c_alive := true |}]) w1 in
      emit "ready" (AColl k) (with_chan (set_cursor (Some c)) w2)
  end.

(** [Channel.prototype.ready], for the [publish] call number [p]. *)
Definition ready (p : nat) (w : world) : world * pub_st :=
  match collection (chan w) with
  | Some _ => (w, PReady)
  | None => (add_listener "ready" (LOnceReady p) w, PWait)
  end.

(** [Channel.prototype.publish] up to the first reaction. *)
Definition publish (ev msg : string) (w : world) : world :=
  let '(w1, s) := ready (length (pubs w)) w in
  with_pubs (pubs w1 ++ [{| p_event := ev; p_message := msg; p_state := s |}]) w1.

(** The first reaction of [publish]: [this.collection.insertOne] throws when
    the reference is [null]. *)
Definition publish_then (w : world) : pub_st :=
  match collection (chan w) with
  | None => PRejected
  | Some k => PInsert k
  end.

(** The second reaction of [publish]: [res.ops[0]]. *)
Definition publish_inserted (k : string) (p : pub) (o : write_result) (w : world)
  : world * pub_st :=
  let n := event_doc (p_event p) (p_message p) in
  match o with
  | WriteOk => let '(s, d) := store_insert k n (store w) in (with_store s w, PResolved d)
  | WriteNotOk => let '(s, d) := store_skip n (store w) in (with_store s w, PResolved d)
  | WriteRejected => (w, PRejected)
  end.

(** [Channel.prototype.subscribe]: without an event name the callback goes
    on 'message'. *)
Definition subscribe (ev : option string) (cb : nat) (w : world) : world :=
  add_listener (default "message" ev) (LSub cb) w.

(** The [unsubscribe] of the handle [subscribe] returned. *)
Definition unsubscribe (ev : option string) (cb : nat) (w : world) : world :=
  with_chan (fun c => set_listeners
                        (removeListener (default "message" ev) cb (listeners c)) c) w.

(** [new Channel(connection, name, options)] on a connection and a store. *)
Definition Channel (connection : Connection) (s : Store)
    (nm : option string) (options : Options) : world :=
  listen None
    (create {| chan := Channel_fields nm options; conn := connection; store := s;
               creating := 0%nat; cursors := []; listens := []; closes := [];
               pubs := []; trace := [] |}).

(** ** The event loop *)

(** The stream of cursor [c] has ended: its 'close' event fires once. *)
Definition cursor_closed (c : nat) (w : world) : world :=
  match cursors w !! c with
  | Some cr =>
      if c_alive cr
      then on_close (c_anchor cr) (with_cursors (<[c := set_dead cr]> (cursors w)) w)
      else w
  | None => w
  end.

(** The promise reactions that are ready to run.  The reactions of
    [latest] and of [publish] only read [this.collection] and the log, so
    running all that are ready is a map over the pending promises; the
    reaction of [listen] changes the channel and is run promise by promise. *)

Definition latest_job (w : world) (run : listen_run) : listen_run :=
  match l_latest run with
  | LQuery => set_latest (latest_then (l_arg run) w) run
  | _ => run
  end.

Definition listen_job (r : nat) (w : world) : world :=
  match listens w !! r with
  | Some run =>
      match l_latest run, l_close run, l_fin run with
      | LDone d, CDone, false =>
          listen_then d (with_listens (<[r := set_fin run]> (listens w)) w)
      | _, _, _ => w
      end
  | None => w
  end.

Definition publish_job (w : world) (pb : pub) : pub :=
  match p_state pb with
  | PReady => set_state (publish_then w) pb
  | _ => pb
  end.

Definition for_each (n : nat) (f : nat -> world -> world) (w : world) : world :=
  foldl (fun w i => f i w) w (seq 0 n).

(** Run the microtask queue dry. *)
Definition settle (w : world) : world :=
  let w1 := with_listens (latest_job w <$> listens w) w in
  let w2 := for_each (length (listens w1)) listen_job w1 in
  with_pubs (publish_job w2 <$> pubs w2) w2.

(** Whose [cursor.close()] completes. *)
Inductive closer :=
| ByListen (r : nat)
| ByUser (i : nat).

(** One turn of the event loop. *)
Inductive label :=
| Subscribe (ev : option string) (cb : nat)
| Unsubscribe (ev : option string) (cb : nat)
| Publish (ev msg : string)
| Close
| Connect
| Destroy
| CreateDone (err : option string)
| LatestInsertDone (r : nat) (o : write_result)
| PublishDone (p : nat) (o : write_result)
| CloseDone (who : closer)
| CursorData (c : nat)
| CursorBreak (c : nat)
| EnvInsert (nm : string) (n : newdoc)
| EnvEvict (nm : string)
| EnvDrop (nm : string).

Definition macro (l : label) (w : world) : option world :=
  match l with
  | Subscribe ev cb => Some (subscribe ev cb w)
  | Unsubscribe ev cb => Some (unsubscribe ev cb w)
  | Publish ev msg => Some (publish ev msg w)
  | Close => let '(w1, c) := close w in Some (with_closes (closes w1 ++ [c]) w1)
  | Connect =>
      if db (conn w) then None
      else Some (with_creating (creating w + connect_waiters (conn w))%nat
                   (with_conn {| db := true; destroyed := destroyed (conn w);
                                 connect_waiters := 0 |} w))
  | Destroy =>
      Some (with_conn {| db := db (conn w); destroyed := true;
                         connect_waiters := connect_waiters (conn w) |} w)
  | CreateDone err =>
      match creating w with
      | O => None
      | S n => Some (create_callback err (with_creating n w))
      end
  | LatestInsertDone r o =>
      match listens w !! r with
      | Some run =>
          match l_latest run with
          | LInsert k =>
              let '(w1, s) := latest_inserted k o w in
              Some (with_listens (<[r := set_latest s run]> (listens w1)) w1)
          | _ => None
          end
      | None => None
      end
  | PublishDone p o =>
      match pubs w !! p with
      | Some pb =>
          match p_state pb with
          | PInsert k =>
              let '(w1, s) := publish_inserted k pb o w in
              Some (with_pubs (<[p := set_state s pb]> (pubs w1)) w1)
          | _ => None
          end
      | None => None
      end
  | CloseDone (ByListen r) =>
      match listens w !! r with
      | Some run =>
          match l_close run with
          | CWait c =>
              let w1 := close_then (cursor_closed c w) in
              Some (with_listens (alter (set_close CDone) r (listens w1)) w1)
          | CDone => None
          end
      | None => None
      end
  | CloseDone (ByUser i) =>
      match closes w !! i with
      | Some (CWait c) =>
          let w1 := close_then (cursor_closed c w) in
          Some (with_closes (<[i := CDone]> (closes w1)) w1)
      | _ => None
      end
  | CursorData c =>
      match cursors w !! c with
      | Some cr =>
          if c_alive cr then
            match cursor_next (c_pos cr) (log_of (c_coll cr) (store w)) with
            | Some d =>
                Some (on_data d (with_cursors (<[c := set_pos (_id d) cr]> (cursors w)) w))
            | None => None
            end
          else None
      | None => None
      end
  | CursorBreak c =>
      match cursors w !! c with
      | Some cr => if c_alive cr then Some (cursor_closed c w) else None
      | None => None
      end
  | EnvInsert nm n => Some (with_store (fst (store_insert nm n (store w))) w)
  | EnvEvict nm => Some (with_store (store_evict nm (store w)) w)
  | EnvDrop nm => Some (with_store (store_drop nm (store w)) w)
  end.

Definition step (l : label) (w : world) : option world := settle <$> macro l w.

Fixpoint run (ls : list label) (w : world) : option world :=
  match ls with
  | [] => Some w
  | l :: r => match step l w with Some w1 => run r w1 | None => None end
  end.

(** The worlds a channel can be in: those a run of the event loop leads to
    from a newly constructed channel. *)
Definition reachable_from (w0 w : world) : Prop := exists ls, run ls w0 = Some w.

Definition reachable (w : world) : Prop :=
  exists connection s nm options,
    connect_waiters connection = 0%nat /\
    reachable_from (Channel connection s nm options) w.

(** ** What the claims speak about *)

Fixpoint count {A : Type} (P : A -> bool) (l : list A) : nat :=
  match l with
  | [] => 0
  | x :: r => (if P x then 1 else 0) + count P r
  end%nat.

(** A [listen] call whose reaction to [Promise.all] has not run: it has not
    opened its stream. *)
Definition unfinished (r : listen_run) : bool := negb (l_fin r).

(** The provisioning runs under way, and the streams that are open. *)
Definition provisioning (w : world) : nat := count unfinished (listens w).

Definition open_streams (w : world) : nat := count c_alive (cursors w).

(** No provisioning under way and no [createCollection] outstanding. *)
Definition idle (w : world) : Prop :=
  provisioning w = 0%nat /\ creating w = 0%nat /\ connect_waiters (conn w) = 0%nat.

(** The calls an [emit(ev, a)] makes to the callbacks of the user. *)
Definition calls (ls : list (string * listener)) (ev : string) (a : arg) : list obs :=
  (fun cb => {| o_cb := cb; o_event := ev; o_arg := a |}) <$> subscribers (listeners_of ev ls).

(** The routing of one delivered document by the 'data' handler. *)
Definition routed (ls : list (string * listener)) (d : doc) : list obs :=
  match event d with
  | Some n =>
      if has_event d
      then calls ls n (AMsg (message d)) ++ calls ls "message" (AMsg (message d))
      else []
  | None => []
  end ++ calls ls "document" (ADoc d).

(** An entry named 'error' needs a callback on 'error'. *)
Definition deliverable (ls : list (string * listener)) (d : doc) : Prop :=
  event d = Some "error" -> subscribers (listeners_of "error" ls) <> [].

(** The routing as the specification words it: an entry that carries an
    event name goes to the subscribers of that name and to the wildcard
    subscribers, every entry goes to the 'document' observers. *)
Definition routed_as_specified (ls : list (string * listener)) (d : doc) : list obs :=
  match event d with
  | Some n => calls ls n (AMsg (message d)) ++ calls ls "message" (AMsg (message d))
  | None => []
  end ++ calls ls "document" (ADoc d).

(** The stream of a cursor delivers [ds] to the handler, in this order. *)
Definition deliver (ds : list doc) (w : world) : world :=
  foldl (fun w d => on_data d w) w ds.

(** ** Frames and invariants *)

(** What an [emit] leaves alone: it changes the listener list, the trace
    and the promises that wait for an event, nothing else. *)
Definition frame (w w' : world) : Prop :=
  closed (chan w') = closed (chan w) /\
  name (chan w') = name (chan w) /\
  collection (chan w') = collection (chan w) /\
  cursor (chan w') = cursor (chan w) /\
  recreate (chan w') = recreate (chan w) /\
  conn w' = conn w /\ store w' = store w /\ creating w' = creating w /\
  cursors w' = cursors w /\ closes w' = closes w /\
  provisioning w' = provisioning w.

(** What the reaction of [listen] leaves alone, besides what [emit] does:
    it sets the closed flag, the cursor and the list of cursors. *)
Definition job_frame (w w' : world) : Prop :=
  name (chan w') = name (chan w) /\
  collection (chan w') = collection (chan w) /\
  recreate (chan w') = recreate (chan w) /\
  conn w' = conn w /\ store w' = store w /\ creating w' = creating w /\
  closes w' = closes w /\
  length (listens w') = length (listens w) /\
  length (pubs w') = length (pubs w) /\
  (forall p pb, pubs w !! p = Some pb -> p_state pb <> PWait -> pubs w' !! p = Some pb).

(** The invariant behind the one-stream claim: a provisioning run and an
    open stream never coexist, there is at most one of either, and the
    closed flag is set for as long as a run is under way. *)
Definition Inv (w : world) : Prop :=
  (provisioning w + open_streams w <= 1)%nat /\
  (closed (chan w) = false -> provisioning w = 0%nat).

(** A closed channel with nothing under way. *)
Definition quiet (w : world) : Prop := idle w /\ closed (chan w) = true.

(** What stays as it is on a quiet channel: no callback is called, no
    provisioning run is started, no stream is opened, a released collection
    stays released and a [publish] that waits keeps waiting. *)
Definition inert (w w' : world) : Prop :=
  trace w' = trace w /\
  length (listens w') = length (listens w) /\
  length (cursors w') = length (cursors w) /\
  (collection (chan w) = None -> collection (chan w') = None) /\
  (forall p pb, pubs w !! p = Some pb -> p_state pb = PWait -> pubs w' !! p = Some pb).

(** The channel reads and writes the log named [n] only: its handle, its
    streams and its writes in flight all name it. *)
Definition run_on (n : string) (rn : listen_run) : Prop :=
  forall k, l_latest rn = LInsert k -> k = n.

Definition pub_on (n : string) (pb : pub) : Prop :=
  forall k, p_state pb = PInsert k -> k = n.

Definition bound_to (n : string) (w : world) : Prop :=
  name (chan w) = n /\
  (forall k, collection (chan w) = Some k -> k = n) /\
  Forall (fun cr => c_coll cr = n) (cursors w) /\
  Forall (run_on n) (listens w) /\
  Forall (pub_on n) (pubs w).

(** ** Example worlds and runs *)

Definition example_connection : Connection :=
  {| db := true; destroyed := false; connect_waiters := 0 |}.

Definition example_store : Store := {| logs := ∅; next_id := 1 |}.

(** [new Channel(connection, 't')] on an empty store. *)
Definition fresh_channel : world :=
  Channel example_connection example_store (Some "t") no_options.

Definition after (ls : list label) (w : world) : world := default w (run ls w).

(** The collection is created, the dummy is written, the stream is open,
    and four callbacks are subscribed. *)
Definition tailing_channel : world :=
  after [CreateDone None; LatestInsertDone 0 WriteOk;
         Subscribe (Some "foo") 7; Subscribe None 8; Subscribe (Some "document") 9;
         Subscribe (Some "error") 1]
        fresh_channel.

(** The dummy of [tailing_channel], and its open stream. *)
Definition doc_anchor : doc :=
  {| _id := 1; event := None; message := None; dummy := true |}.

Definition tailing_cursor : cursor_rec :=
  {| c_coll := "t"; c_anchor := doc_anchor; c_pos := 1; c_alive := true |}.

Definition doc_foo : doc :=
  {| _id := 2; event := Some "foo"; message := Some "m1"; dummy := false |}.

Definition doc_unnamed : doc :=
  {| _id := 3; event := Some ""; message := Some "m2"; dummy := false |}.

Definition doc_error : doc :=
  {| _id := 4; event := Some "error"; message := Some "m3"; dummy := false |}.

(** The calls of the callbacks, as they show in the trace. *)
Definition call (cb : nat) (ev msg : string) : obs :=
  {| o_cb := cb; o_event := ev; o_arg := AMsg (Some msg) |}.


(** A tailing channel with a 'document' observer and no 'error' listener. *)
Definition observed_channel : world :=
  after [CreateDone None; LatestInsertDone 0 WriteOk; Subscribe (Some "document") 9]
        fresh_channel.













(** ** Further notions *)

(** The channel has no collection, no [createCollection] is outstanding and
    no stream is open: provisioning has failed for good. *)
Definition stranded (w : world) : Prop :=
  collection (chan w) = None /\ creating w = 0%nat /\
  connect_waiters (conn w) = 0%nat /\ open_streams w = 0%nat.


(** The turns that are the doing of other users of the store. *)
Definition is_env (l : label) : bool :=
  match l with
  | EnvInsert _ _ | EnvEvict _ | EnvDrop _ => true
  | _ => false
  end.



(** * Proofs *)

Section Counting.
Context {A : Type} (P : A -> bool).

Lemma count_app (l k : list A) : count P (l ++ k) = (count P l + count P k)%nat.
Proof. induction l as [|x l IH]; simpl; [done | rewrite IH; lia]. Qed.

Lemma count_fmap_same (f : A -> A) (l : list A) :
  (forall x, P (f x) = P x) -> count P (f <$> l) = count P l.
Proof. intros Hf. induction l as [|x l IH]; csimpl; [done | by rewrite Hf, IH]. Qed.

Lemma count_alter_same (f : A -> A) (i : nat) (l : list A) :
  (forall x, P (f x) = P x) -> count P (alter f i l) = count P l.
Proof.
  intros Hf. revert i. induction l as [|x l IH]; intros [|i]; csimpl; try done.
  - by rewrite Hf.
  - f_equal. apply IH.
Qed.

Lemma count_insert (i : nat) (x y : A) (l : list A) :
  l !! i = Some y ->
  (count P (<[i := x]> l) + (if P y then 1 else 0)
   = count P l + (if P x then 1 else 0))%nat.
Proof.
  revert i. induction l as [|z l IH]; intros [|i] Hi; simpl in *; try done.
  - injection Hi as ->. lia.
  - specialize (IH i Hi). lia.
Qed.

Lemma count_lookup (i : nat) (x : A) (l : list A) :
  l !! i = Some x -> P x = true -> (1 <= count P l)%nat.
Proof.
  revert i. induction l as [|z l IH]; intros [|i] Hi Hx; simpl in *; try done.
  - injection Hi as ->. rewrite Hx. lia.
  - specialize (IH i Hi Hx). lia.
Qed.
End Counting.

(** ** The emitter *)

Lemma frame_refl w : frame w w.
Proof. by repeat split. Qed.

Lemma frame_trans w1 w2 w3 : frame w1 w2 -> frame w2 w3 -> frame w1 w3.
Proof. unfold frame. intros H1 H2. intuition congruence. Qed.

Lemma unfinished_resolve_latest r : unfinished (resolve_latest r) = unfinished r.
Proof. unfold resolve_latest. by destruct (l_latest r). Qed.

Lemma fire_frame ev a w l : frame w (fire ev a w l).
Proof.
  destruct l; repeat split; simpl; try done.
  unfold provisioning; simpl. apply count_alter_same, unfinished_resolve_latest.
Qed.

Lemma foldl_fire_frame ev a ls w : frame w (foldl (fire ev a) w ls).
Proof.
  revert w. induction ls as [|l ls IH]; intros w; simpl; [apply frame_refl|].
  eapply frame_trans; [apply fire_frame | apply IH].
Qed.

Lemma emit_frame ev a w : frame w (emit ev a w).
Proof.
  unfold emit. eapply frame_trans; [| apply foldl_fire_frame]. by repeat split.
Qed.

Lemma frame_open_streams w w' : frame w w' -> open_streams w' = open_streams w.
Proof. unfold frame, open_streams. intros H. by replace (cursors w') with (cursors w) by (symmetry; tauto). Qed.

Lemma frame_Inv w w' : frame w w' -> Inv w -> Inv w'.
Proof.
  intros F [I1 I2]. pose proof (frame_open_streams _ _ F) as Ho.
  destruct F as (Hc & _ & _ & _ & _ & _ & _ & _ & _ & _ & Hp).
  split; rewrite ?Hp, ?Ho, ?Hc; done.
Qed.

(** ** One provisioning run or one open stream *)

Ltac counts := unfold Inv, provisioning, open_streams in *; simpl in *.

Lemma create_Inv w : Inv w -> Inv (create w).
Proof. unfold create, Inv, provisioning, open_streams. by destruct (db (conn w)). Qed.

Lemma listen_provisioning a w : provisioning (listen a w) = S (provisioning w).
Proof.
  unfold listen, latest, close, provisioning.
  destruct (collection (chan w)); simpl;
    destruct (cursor (chan w)); simpl; rewrite count_app; simpl; lia.
Qed.

Lemma listen_closed a w : closed (chan (listen a w)) = true.
Proof.
  unfold listen, latest, close.
  destruct (collection (chan w)); simpl; by destruct (cursor (chan w)).
Qed.

Lemma listen_cursors a w : cursors (listen a w) = cursors w.
Proof.
  unfold listen, latest, close.
  destruct (collection (chan w)); simpl; by destruct (cursor (chan w)).
Qed.

Lemma on_close_Inv a w :
  Inv w -> open_streams w = 0%nat -> Inv (on_close a w).
Proof.
  intros I Ho. unfold on_close.
  destruct (closed (chan w)) eqn:Hc; simpl; [done|].
  destruct (destroyed (conn w)); [done|].
  destruct (throws _ _); [done|].
  pose proof (emit_frame "error" (AErr "Mubsub: broken cursor.") w) as F.
  set (w1 := emit _ _ w) in *.
  assert (I1 : Inv w1) by (eapply frame_Inv; eauto).
  assert (Ho1 : open_streams w1 = 0%nat) by (by rewrite (frame_open_streams _ _ F)).
  assert (Hp1 : provisioning w1 = 0%nat).
  { destruct F as (Hc' & _). apply I1. by rewrite Hc'. }
  destruct (truthy (recreate (chan w1))); [|done].
  split.
  - rewrite listen_provisioning. unfold open_streams in *. rewrite listen_cursors.
    unfold provisioning, create in *. destruct (db (conn w1)); simpl; lia.
  - by rewrite listen_closed.
Qed.

Lemma cursor_closed_Inv c w : Inv w -> Inv (cursor_closed c w).
Proof.
  intros I. unfold cursor_closed.
  destruct (cursors w !! c) as [cr|] eqn:Hl; [|done].
  destruct (c_alive cr) eqn:Ha; [|done].
  pose proof (count_insert c_alive c (set_dead cr) cr (cursors w) Hl) as Hn.
  rewrite Ha in Hn. simpl in Hn.
  destruct I as [I1 I2]. apply on_close_Inv; counts; [split; [lia | done] | lia].
Qed.

Lemma on_data_frame d w : frame w (on_data d w).
Proof.
  unfold on_data. destruct (closed (chan w) || destroyed (conn w)); [apply frame_refl|].
  destruct (event d); [|apply emit_frame].
  destruct (has_event d); [|apply emit_frame].
  destruct (throws _ _); [apply frame_refl|].
  eapply frame_trans; [| apply emit_frame].
  eapply frame_trans; apply emit_frame.
Qed.

Lemma listen_then_Inv d w :
  provisioning w = 0%nat -> open_streams w = 0%nat -> Inv (listen_then d w).
Proof.
  intros Hp Ho. unfold listen_then. simpl.
  destruct (collection (chan w)) as [k|]; [|counts; split; [lia | done]].
  eapply frame_Inv; [apply emit_frame|].
  counts. rewrite count_app. simpl. split; [lia | done].
Qed.

Lemma listen_job_Inv r w : Inv w -> Inv (listen_job r w).
Proof.
  intros I. unfold listen_job.
  destruct (listens w !! r) as [rn|] eqn:Hl; [|done].
  destruct (l_latest rn); try done. destruct (l_close rn); try done.
  destruct (l_fin rn) eqn:Hf; [done|].
  pose proof (count_insert unfinished r (set_fin rn) rn (listens w) Hl) as Hn.
  replace (unfinished rn) with true in Hn by (unfold unfinished; by rewrite Hf).
  replace (unfinished (set_fin rn)) with false in Hn by done.
  destruct I as [I1 _]. apply listen_then_Inv; counts; lia.
Qed.

Lemma for_each_preserves (Q : world -> Prop) f n w :
  (forall i w, Q w -> Q (f i w)) -> Q w -> Q (for_each n f w).
Proof.
  intros Hf. unfold for_each. generalize (seq 0 n). intros l. revert w.
  induction l as [|i l IH]; intros w Hw; simpl; [done|]. apply IH, Hf, Hw.
Qed.

Lemma unfinished_latest_job w r : unfinished (latest_job w r) = unfinished r.
Proof. unfold latest_job. by destruct (l_latest r). Qed.

Lemma settle_Inv w : Inv w -> Inv (settle w).
Proof.
  intros I. unfold settle.
  set (w1 := with_listens _ w).
  assert (I1 : Inv w1).
  { unfold Inv, provisioning, open_streams in *. subst w1; simpl.
    rewrite count_fmap_same by apply unfinished_latest_job. done. }
  set (w2 := for_each _ _ w1).
  assert (I2 : Inv w2) by (apply for_each_preserves; [intros; by apply listen_job_Inv | done]).
  exact I2.
Qed.

Lemma unfinished_set_latest s r : unfinished (set_latest s r) = unfinished r.
Proof. done. Qed.

Lemma unfinished_set_close s r : unfinished (set_close s r) = unfinished r.
Proof. done. Qed.

Lemma count_insert_same {A} (P : A -> bool) i x y (l : list A) :
  l !! i = Some y -> P x = P y -> count P (<[i := x]> l) = count P l.
Proof.
  intros Hl HP. pose proof (count_insert P i x y l Hl) as Hn. rewrite HP in Hn. lia.
Qed.

Lemma create_callback_Inv err w : Inv w -> Inv (create_callback err w).
Proof.
  intros I. unfold create_callback. destruct err as [msg|].
  - destruct (String.eqb msg _); [by apply create_Inv|].
    destruct (throws _ _); [done|].
    eapply frame_Inv; [apply emit_frame | done].
  - eapply frame_Inv; [apply emit_frame | done].
Qed.

Lemma macro_Inv l w w' : Inv w -> macro l w = Some w' -> Inv w'.
Proof.
  intros I H. destruct l; simpl in H.
  - injection H as <-. exact I.
  - injection H as <-. exact I.
  - injection H as <-. unfold publish, ready.
    destruct (collection (chan w)); exact I.
  - unfold close in H. simpl in H. destruct (cursor (chan w)); injection H as <-;
      counts; (split; [tauto | done]).
  - destruct (db (conn w)); [done|]. injection H as <-. exact I.
  - injection H as <-. exact I.
  - destruct (creating w) eqn:Hc; [done|]. injection H as <-.
    by apply create_callback_Inv.
  - destruct (listens w !! r) as [rn|] eqn:Hl; [|done].
    destruct (l_latest rn); try done.
    unfold latest_inserted, store_insert, store_skip in H.
    destruct o; simpl in H; injection H as <-; counts;
      rewrite (count_insert_same _ _ _ rn) by done; done.
  - destruct (pubs w !! p) as [pb|]; [|done].
    destruct (p_state pb); try done.
    unfold publish_inserted, store_insert, store_skip in H.
    destruct o; simpl in H; injection H as <-; exact I.
  - destruct who as [r|i].
    + destruct (listens w !! r) as [rn|]; [|done].
      destruct (l_close rn); [|done]. injection H as <-.
      pose proof (cursor_closed_Inv c w I) as I'. counts.
      rewrite count_alter_same by apply unfinished_set_close. done.
    + destruct (closes w !! i) as [[c|]|]; try done. injection H as <-.
      exact (cursor_closed_Inv c w I).
  - destruct (cursors w !! c) as [cr|] eqn:Hl; [|done].
    destruct (c_alive cr) eqn:Ha; [|done].
    destruct (cursor_next _ _) as [d|]; [|done]. injection H as <-.
    eapply frame_Inv; [apply on_data_frame|]. counts.
    rewrite (count_insert_same _ _ _ cr) by done. done.
  - destruct (cursors w !! c) as [cr|]; [|done].
    destruct (c_alive cr); [|done]. injection H as <-. by apply cursor_closed_Inv.
  - injection H as <-. exact I.
  - injection H as <-. exact I.
  - injection H as <-. exact I.
Qed.

Lemma step_Inv l w w' : Inv w -> step l w = Some w' -> Inv w'.
Proof.
  unfold step. intros I H. destruct (macro l w) as [w1|] eqn:Hm; [|done].
  injection H as <-. eapply settle_Inv, macro_Inv; eauto.
Qed.

Lemma run_preserves (Q : world -> Prop) :
  (forall l w w', Q w -> step l w = Some w' -> Q w') ->
  forall ls w w', Q w -> run ls w = Some w' -> Q w'.
Proof.
  intros Hs ls. induction ls as [|l ls IH]; intros w w' Hw H; simpl in H.
  - by injection H as <-.
  - destruct (step l w) as [w1|] eqn:H1; [|done]. eauto.
Qed.

Lemma Channel_Inv connection s nm options : Inv (Channel connection s nm options).
Proof.
  unfold Channel. split.
  - rewrite listen_provisioning. unfold open_streams. rewrite listen_cursors.
    unfold provisioning, create. simpl. destruct (db connection); simpl; lia.
  - by rewrite listen_closed.
Qed.

Lemma reachable_Inv w : reachable w -> Inv w.
Proof.
  intros (connection & s & nm & options & _ & H). destruct H as [ls H].
  exact (run_preserves Inv step_Inv ls _ _ (Channel_Inv _ _ _ _) H).
Qed.

(** ** Routing of delivered documents *)

Lemma foldl_fire_listeners ev a ls w :
  listeners (chan (foldl (fire ev a) w ls)) = listeners (chan w).
Proof.
  revert w. induction ls as [|l ls IH]; intros w; simpl; [done|].
  rewrite IH. by destruct l.
Qed.

Lemma foldl_fire_trace ev a ls w :
  trace (foldl (fire ev a) w ls)
  = trace w ++ ((fun cb => {| o_cb := cb; o_event := ev; o_arg := a |}) <$> subscribers ls).
Proof.
  revert w. induction ls as [|l ls IH]; intros w; simpl.
  - by rewrite app_nil_r.
  - rewrite IH. destruct l; simpl; [|done..]. by rewrite <- app_assoc.
Qed.

Lemma emit_trace ev a w : trace (emit ev a w) = trace w ++ calls (listeners (chan w)) ev a.
Proof. unfold emit. by rewrite foldl_fire_trace. Qed.

Lemma emit_listeners ev a w :
  listeners (chan (emit ev a w)) = drop_once ev (listeners (chan w)).
Proof. unfold emit. by rewrite foldl_fire_listeners. Qed.

Lemma subscribers_drop_once ev ev' ls :
  subscribers (listeners_of ev' (drop_once ev ls)) = subscribers (listeners_of ev' ls).
Proof.
  unfold listeners_of, drop_once. induction ls as [|[e l] ls IH]; simpl; [done|].
  destruct l; simpl; rewrite ?andb_false_r; simpl.
  - destruct (on_event ev' (e, LSub cb)); csimpl; by rewrite IH.
  - destruct (on_event ev (e, LOnceCollection run0)); simpl;
      destruct (on_event ev' (e, LOnceCollection run0)); csimpl; by rewrite IH.
  - destruct (on_event ev (e, LOnceReady p)); simpl;
      destruct (on_event ev' (e, LOnceReady p)); csimpl; by rewrite IH.
Qed.

Lemma emit_calls ev a w ev' a' :
  calls (listeners (chan (emit ev a w))) ev' a' = calls (listeners (chan w)) ev' a'.
Proof. unfold calls. by rewrite emit_listeners, subscribers_drop_once. Qed.

Lemma emit_subscribers ev a w ev' :
  subscribers (listeners_of ev' (listeners (chan (emit ev a w))))
  = subscribers (listeners_of ev' (listeners (chan w))).
Proof. by rewrite emit_listeners, subscribers_drop_once. Qed.

Lemma on_data_subscribers d w ev :
  subscribers (listeners_of ev (listeners (chan (on_data d w))))
  = subscribers (listeners_of ev (listeners (chan w))).
Proof.
  unfold on_data. destruct (closed (chan w) || destroyed (conn w)); [done|].
  destruct (event d); [|apply emit_subscribers].
  destruct (has_event d); [|apply emit_subscribers].
  destruct (throws _ _); [done|]. by rewrite !emit_subscribers.
Qed.

Lemma deliverable_not_thrown ls d n :
  deliverable ls d -> event d = Some n -> throws n ls = false.
Proof.
  intros Hd Hn. unfold throws. destruct (String.eqb n "error") eqn:E; [|done].
  apply String.eqb_eq in E as ->. specialize (Hd Hn).
  destruct (listeners_of "error" ls); [done | done].
Qed.

Lemma on_data_trace d w :
  closed (chan w) = false -> destroyed (conn w) = false ->
  deliverable (listeners (chan w)) d ->
  trace (on_data d w) = trace w ++ routed (listeners (chan w)) d.
Proof.
  intros Hc Hd Hv. unfold on_data, routed. rewrite Hc, Hd. simpl.
  destruct (event d) as [n|] eqn:En; [|by rewrite emit_trace].
  destruct (has_event d); [|by rewrite emit_trace].
  rewrite (deliverable_not_thrown _ _ _ Hv En).
  rewrite !emit_trace, !emit_calls. by rewrite <- !app_assoc.
Qed.

Lemma routed_subscribers ls ls' d :
  (forall ev, subscribers (listeners_of ev ls') = subscribers (listeners_of ev ls)) ->
  routed ls' d = routed ls d.
Proof. intros H. unfold routed, calls. destruct (event d); by rewrite !H. Qed.

(** C1 (as amended): while the channel is tailing, the documents the stream
    delivers are routed one after the other, in the order of delivery; a
    document whose event name is present and not empty goes to the
    subscribers of that name, then to the 'message' subscribers, and every
    document, named or not, goes to the 'document' observers.  (A document
    named 'error' is covered when a callback is subscribed to 'error'.) *)
Theorem delivery_is_routed_in_order (ds : list doc) (w : world) :
  closed (chan w) = false -> destroyed (conn w) = false ->
  Forall (deliverable (listeners (chan w))) ds ->
  trace (deliver ds w) = trace w ++ concat (routed (listeners (chan w)) <$> ds).
Proof.
  unfold deliver. revert w. induction ds as [|d ds IH]; intros w Hc Hd Hv; csimpl.
  - by rewrite app_nil_r.
  - inversion Hv as [|d0 ds0 Hv1 Hv2]; subst.
    pose proof (on_data_frame d w) as (Fc & _ & _ & _ & _ & Fn & _).
    rewrite IH.
    + rewrite on_data_trace by done. rewrite <- app_assoc. do 3 f_equal.
      apply list_fmap_ext. intros _ d' _. apply routed_subscribers.
      intros. apply on_data_subscribers.
    + by rewrite Fc.
    + by rewrite Fn.
    + eapply Forall_impl; [|exact Hv2]. intros d' Hd'. unfold deliverable.
      by rewrite on_data_subscribers.
Qed.

Lemma delivery_is_routed_in_order_witness :
  trace (deliver [doc_foo; doc_unnamed] tailing_channel)
  = trace tailing_channel
    ++ concat (routed (listeners (chan tailing_channel)) <$> [doc_foo; doc_unnamed]).
Proof.
  apply delivery_is_routed_in_order; [reflexivity | reflexivity |].
  repeat constructor; discriminate.
Defined.

(** C1 as stated fails: a document published under the empty event name
    carries an event name, yet [if (doc.event)] keeps it from the 'message'
    subscribers, and only the 'document' observer is called; and a document
    named 'error' on a channel without an 'error' listener makes the first
    [emit] throw, so that not even the 'document' observer is called. *)
Lemma empty_event_name_not_routed :
  closed (chan tailing_channel) = false /\
  destroyed (conn tailing_channel) = false /\
  trace (on_data doc_unnamed tailing_channel)
  = trace tailing_channel
    ++ [{| o_cb := 9; o_event := "document"; o_arg := ADoc doc_unnamed |}] /\
  routed_as_specified (listeners (chan tailing_channel)) doc_unnamed
  = [call 8 "message" "m2";
     {| o_cb := 9; o_event := "document"; o_arg := ADoc doc_unnamed |}] /\
  closed (chan observed_channel) = false /\
  destroyed (conn observed_channel) = false /\
  trace (on_data doc_error observed_channel) = trace observed_channel /\
  routed_as_specified (listeners (chan observed_channel)) doc_error
  = [{| o_cb := 9; o_event := "document"; o_arg := ADoc doc_error |}] /\
  ~ (forall (d : doc) (w : world),
       closed (chan w) = false -> destroyed (conn w) = false ->
       trace (on_data d w) = trace w ++ routed_as_specified (listeners (chan w)) d).
Proof.
  repeat match goal with |- _ /\ _ => split end.
  1-8: vm_compute; reflexivity.
  intros H. specialize (H doc_unnamed tailing_channel eq_refl eq_refl).
  vm_compute in H. discriminate H.
Qed.

(** ** The anchor *)







Lemma log_of_insert k n s :
  log_of k (fst (store_insert k n s)) = log_of k s ++ [stored (next_id s) n].
Proof. unfold store_insert, log_of at 1. simpl. by rewrite lookup_insert_eq. Qed.




(** ** The recreate option and the restart *)









Lemma Inv_unfinished w r rn :
  Inv w -> listens w !! r = Some rn -> l_fin rn = false -> open_streams w = 0%nat.
Proof.
  intros [I _] Hr Hf.
  assert (1 <= provisioning w)%nat.
  { eapply count_lookup; [exact Hr|]. unfold unfinished. by rewrite Hf. }
  lia.
Qed.

(** C5: in every world the channel can reach, at most one stream is open,
    and no stream is open while a [listen] call has yet to open its own:
    neither between turns of the event loop, nor inside a turn at the point
    where the reactions of [latest] look up or receive the anchor.  The
    anchor of a new stream is thus always obtained after the previous stream
    has closed. *)
Theorem one_stream_at_a_time (w : world) :
  reachable w ->
  (open_streams w <= 1)%nat /\
  (forall r rn, listens w !! r = Some rn -> l_fin rn = false ->
     open_streams w = 0%nat) /\
  (forall l w1 r rn, macro l w = Some w1 ->
     listens w1 !! r = Some rn -> l_fin rn = false -> open_streams w1 = 0%nat).
Proof.
  intros R. apply reachable_Inv in R. repeat split.
  - destruct R as [R _]. lia.
  - intros r rn. by apply Inv_unfinished.
  - intros l w1 r rn Hm. apply Inv_unfinished. by eapply macro_Inv.
Qed.

Lemma one_stream_at_a_time_witness :
  (open_streams tailing_channel <= 1)%nat /\
  (forall r rn, listens tailing_channel !! r = Some rn -> l_fin rn = false ->
     open_streams tailing_channel = 0%nat) /\
  (forall l w1 r rn, macro l tailing_channel = Some w1 ->
     listens w1 !! r = Some rn -> l_fin rn = false -> open_streams w1 = 0%nat).
Proof.
  apply one_stream_at_a_time.
  exists example_connection, example_store, (Some "t"), no_options.
  split; [reflexivity|].
  exists [CreateDone None; LatestInsertDone 0 WriteOk;
          Subscribe (Some "foo") 7; Subscribe None 8; Subscribe (Some "document") 9;
          Subscribe (Some "error") 1].
  vm_compute. reflexivity.
Defined.

(** ** close *)

Lemma set_closed_same ch : closed ch = true -> set_closed true ch = ch.
Proof. destruct ch; simpl. by intros ->. Qed.

Lemma with_chan_same f w : f (chan w) = chan w -> with_chan f w = w.
Proof. destruct w; unfold with_chan; simpl. by intros ->. Qed.

Lemma close_noop w :
  closed (chan w) = true -> cursor (chan w) = None -> close w = (w, CDone).
Proof.
  intros Hc Hn. unfold close. simpl. rewrite Hn.
  by rewrite with_chan_same by (by apply set_closed_same).
Qed.

(** C8: a turn that calls [close] never fails; on a channel that holds no
    cursor (none was ever opened, or a close has completed) the promise is
    resolved at once; and on a channel that is already closed the call
    changes nothing: in particular a [close] after a completed [close] is a
    no-op that resolves. *)
Theorem close_is_idempotent_and_total (w : world) :
  is_Some (step Close w) /\
  (cursor (chan w) = None -> snd (close w) = CDone) /\
  (closed (chan w) = true -> cursor (chan w) = None -> close w = (w, CDone)) /\
  (let w1 := close_then (fst (close w)) in close w1 = (w1, CDone)).
Proof.
  split; [|split; [|split]].
  - unfold step. simpl. destruct (close w). by eexists.
  - intros Hn. unfold close. simpl. by rewrite Hn.
  - apply close_noop.
  - simpl. apply close_noop; unfold close; simpl; by destruct (cursor (chan w)).
Qed.

Lemma close_is_idempotent_and_total_witness :
  is_Some (step Close fresh_channel) /\
  snd (close fresh_channel) = CDone /\
  close fresh_channel = (fresh_channel, CDone) /\
  close (close_then (fst (close tailing_channel)))
  = (close_then (fst (close tailing_channel)), CDone).
Proof.
  split; [|split; [|split]].
  - apply (close_is_idempotent_and_total fresh_channel).
  - apply (close_is_idempotent_and_total fresh_channel). reflexivity.
  - apply (close_is_idempotent_and_total fresh_channel); reflexivity.
  - apply (close_is_idempotent_and_total tailing_channel).
Defined.

(** ** publish *)

Lemma job_frame_refl w : job_frame w w.
Proof. by repeat split. Qed.

Lemma job_frame_trans w1 w2 w3 : job_frame w1 w2 -> job_frame w2 w3 -> job_frame w1 w3.
Proof.
  unfold job_frame. intros H1 H2. repeat split; try (intuition congruence).
  intros p pb Hp Hs. apply H2; [|done]. by apply H1.
Qed.

Lemma fire_job_frame ev a w l : job_frame w (fire ev a w l).
Proof.
  destruct l; repeat split; simpl; try done.
  - apply length_alter.
  - apply length_alter.
  - intros p' pb Hp Hs. destruct (decide (p = p')) as [->|Hne].
    + rewrite list_lookup_alter_eq, Hp. simpl. f_equal.
      unfold resolve_ready. by destruct (p_state pb).
    + by rewrite list_lookup_alter_ne.
Qed.

Lemma foldl_fire_job_frame ev a ls w : job_frame w (foldl (fire ev a) w ls).
Proof.
  revert w. induction ls as [|l ls IH]; intros w; simpl; [apply job_frame_refl|].
  eapply job_frame_trans; [apply fire_job_frame | apply IH].
Qed.

Lemma emit_job_frame ev a w : job_frame w (emit ev a w).
Proof.
  unfold emit. eapply job_frame_trans; [| apply foldl_fire_job_frame]. by repeat split.
Qed.

Lemma listen_then_job_frame d w : job_frame w (listen_then d w).
Proof.
  unfold listen_then. simpl. destruct (collection (chan w)) as [k|] eqn:Hk.
  - eapply job_frame_trans; [| apply emit_job_frame]. by repeat split.
  - by repeat split.
Qed.

Lemma listen_job_job_frame r w : job_frame w (listen_job r w).
Proof.
  unfold listen_job. destruct (listens w !! r) as [rn|]; [|apply job_frame_refl].
  destruct (l_latest rn); try apply job_frame_refl.
  destruct (l_close rn); try apply job_frame_refl.
  destruct (l_fin rn); try apply job_frame_refl.
  eapply job_frame_trans; [| apply listen_then_job_frame].
  repeat split; simpl; try done. apply length_insert.
Qed.

Lemma for_each_listen_job_frame n w : job_frame w (for_each n listen_job w).
Proof.
  apply (for_each_preserves (job_frame w)); [|apply job_frame_refl].
  intros i w' F. eapply job_frame_trans; [exact F | apply listen_job_job_frame].
Qed.

Lemma settle_unfold w :
  exists w2, job_frame (with_listens (latest_job w <$> listens w) w) w2 /\
             settle w = with_pubs (publish_job w2 <$> pubs w2) w2.
Proof. eexists. split; [apply for_each_listen_job_frame | reflexivity]. Qed.

Lemma settle_store w : store (settle w) = store w.
Proof.
  destruct (settle_unfold w) as (w2 & F & ->). simpl.
  destruct F as (_ & _ & _ & _ & E & _). by rewrite E.
Qed.

Lemma settle_collection w : collection (chan (settle w)) = collection (chan w).
Proof.
  destruct (settle_unfold w) as (w2 & F & ->). simpl.
  destruct F as (_ & E & _). by rewrite E.
Qed.

Lemma settle_name w : name (chan (settle w)) = name (chan w).
Proof.
  destruct (settle_unfold w) as (w2 & F & ->). simpl.
  destruct F as (E & _). by rewrite E.
Qed.

Lemma settle_conn w : conn (settle w) = conn w.
Proof.
  destruct (settle_unfold w) as (w2 & F & ->). simpl.
  destruct F as (_ & _ & _ & E & _). by rewrite E.
Qed.

Lemma settle_pubs_length w : length (pubs (settle w)) = length (pubs w).
Proof.
  destruct (settle_unfold w) as (w2 & F & ->). simpl. rewrite length_fmap.
  destruct F as (_ & _ & _ & _ & _ & _ & _ & _ & E & _). by rewrite E.
Qed.

Lemma settle_pub w p pb :
  pubs w !! p = Some pb -> p_state pb <> PWait ->
  pubs (settle w) !! p
  = Some (match p_state pb with PReady => set_state (publish_then w) pb | _ => pb end).
Proof.
  intros Hp Hs. destruct (settle_unfold w) as (w2 & F & ->). simpl.
  destruct F as (_ & Hc & _ & _ & _ & _ & _ & _ & _ & Hk).
  rewrite list_lookup_fmap, (Hk p pb Hp Hs). simpl. f_equal.
  unfold publish_job, publish_then. by rewrite Hc.
Qed.









(** ** A closed or destroyed channel *)


Lemma inert_refl w : inert w w.
Proof. by repeat split. Qed.

Lemma inert_trans w1 w2 w3 : inert w1 w2 -> inert w2 w3 -> inert w1 w3.
Proof.
  intros (T1 & L1 & C1 & K1 & P1) (T2 & L2 & C2 & K2 & P2).
  repeat split; try congruence; [tauto|]. intros p pb Hp Hs. apply P2; [|done]. by apply P1.
Qed.

Lemma listen_job_idle r w : provisioning w = 0%nat -> listen_job r w = w.
Proof.
  intros Hp. unfold listen_job.
  destruct (listens w !! r) as [rn|] eqn:Hr; [|done].
  destruct (l_latest rn); try done. destruct (l_close rn); try done.
  destruct (l_fin rn) eqn:Hf; [done|].
  assert (1 <= provisioning w)%nat; [|lia].
  eapply count_lookup; [exact Hr|]. unfold unfinished. by rewrite Hf.
Qed.

Lemma for_each_listen_job_idle n w : provisioning w = 0%nat -> for_each n listen_job w = w.
Proof.
  intros Hp. apply (for_each_preserves (fun w' => w' = w)); [|done].
  intros i w' ->. by apply listen_job_idle.
Qed.

Lemma settle_quiet w : quiet w -> quiet (settle w) /\ inert w (settle w).
Proof.
  intros ((Hp & Hc & Hw) & Hcl). unfold settle.
  set (w1 := with_listens (latest_job w <$> listens w) w).
  assert (Hp1 : provisioning w1 = 0%nat).
  { unfold provisioning, w1. simpl.
    rewrite count_fmap_same by apply unfinished_latest_job. exact Hp. }
  rewrite for_each_listen_job_idle by exact Hp1.
  split; [by repeat split|]. repeat split; simpl; try done.
  - apply length_fmap.
  - intros p pb Hpb Hs. rewrite list_lookup_fmap, Hpb. simpl.
    unfold publish_job. by rewrite Hs.
Qed.















(** ** The log a channel is bound to *)

Lemma fire_bound n ev a w l : bound_to n w -> bound_to n (fire ev a w l).
Proof.
  intros (Hn & Hc & Hcs & Hl & Hp). destruct l; repeat split; simpl; try done.
  - apply Forall_alter; [done|]. intros rn _ Hrn k. unfold resolve_latest.
    destruct (l_latest rn) eqn:E; simpl; rewrite ?E; try done.
    intros [= <-]. by apply Hrn.
  - apply Forall_alter; [done|]. intros pb _ Hpb k. unfold resolve_ready.
    destruct (p_state pb) eqn:E; simpl; rewrite ?E; try done.
    intros [= <-]. by apply Hpb.
Qed.

Lemma emit_bound n ev a w : bound_to n w -> bound_to n (emit ev a w).
Proof.
  intros H. unfold emit.
  assert (H0 : bound_to n (with_chan (set_listeners (drop_once ev (listeners (chan w)))) w))
    by exact H.
  revert H0. generalize (with_chan (set_listeners (drop_once ev (listeners (chan w)))) w).
  induction (listeners_of ev (listeners (chan w))) as [|l ls IH]; intros w0 H0; simpl;
    [done|]. by apply IH, fire_bound.
Qed.

Lemma create_bound n w : bound_to n w -> bound_to n (create w).
Proof. unfold create. by destruct (db (conn w)). Qed.

Lemma listen_bound n a w : bound_to n w -> bound_to n (listen a w).
Proof.
  intros (Hn & Hc & Hcs & Hl & Hp). unfold listen, latest, close.
  destruct (collection (chan w)) eqn:E; simpl; destruct (cursor (chan w)); simpl;
    repeat split; simpl; try done;
    try (rewrite E; done);
    (apply Forall_app; split; [done|]); by repeat constructor.
Qed.

Lemma on_close_bound n a w : bound_to n w -> bound_to n (on_close a w).
Proof.
  intros H. unfold on_close. destruct (closed (chan w) || destroyed (conn w)); [done|].
  destruct (throws _ _); [done|].
  destruct (truthy _); [|by apply emit_bound].
  by apply listen_bound, create_bound, emit_bound.
Qed.

Lemma cursor_closed_bound n c w : bound_to n w -> bound_to n (cursor_closed c w).
Proof.
  intros H. unfold cursor_closed. destruct (cursors w !! c) as [cr|] eqn:Hc; [|done].
  destruct (c_alive cr); [|done]. apply on_close_bound.
  destruct H as (Hn & Hk & Hcs & Hl & Hp). repeat split; simpl; try done.
  apply Forall_insert; [done|]. simpl. by eapply (Forall_lookup_1 _ _ _ _ Hcs).
Qed.

Lemma on_data_bound n d w : bound_to n w -> bound_to n (on_data d w).
Proof.
  intros H. unfold on_data. destruct (closed (chan w) || destroyed (conn w)); [done|].
  destruct (event d); [|by apply emit_bound].
  destruct (has_event d); [|by apply emit_bound].
  destruct (throws _ _); [done|]. by apply emit_bound, emit_bound, emit_bound.
Qed.

Lemma listen_job_bound n r w : bound_to n w -> bound_to n (listen_job r w).
Proof.
  intros H. unfold listen_job. destruct (listens w !! r) as [rn|] eqn:Hr; [|done].
  destruct (l_latest rn) eqn:El; try done. destruct (l_close rn); try done.
  destruct (l_fin rn); [done|].
  destruct H as (Hn & Hk & Hcs & Hl & Hp). unfold listen_then. simpl.
  assert (Hl' : Forall (run_on n) (<[r:=set_fin rn]> (listens w))).
  { apply Forall_insert; [done|]. intros k. simpl. by rewrite El. }
  destruct (collection (chan w)) as [k|] eqn:Ek;
    [|repeat split; simpl; try done; by rewrite Ek].
  apply emit_bound. repeat split; simpl; try done.
  - by rewrite Ek.
  - apply Forall_app. split; [done|]. repeat constructor. simpl. by apply Hk.
Qed.

Lemma settle_bound n w : bound_to n w -> bound_to n (settle w).
Proof.
  intros H. unfold settle.
  set (w1 := with_listens (latest_job w <$> listens w) w).
  assert (H1 : bound_to n w1).
  { destruct H as (Hn & Hk & Hcs & Hl & Hp). repeat split; simpl; try done.
    apply Forall_fmap. eapply Forall_impl; [|exact Hl].
    intros rn Hrn k. simpl. unfold latest_job, latest_then.
    destruct (l_latest rn) eqn:E; simpl; rewrite ?E; try done.
    - destruct (collection (chan w)) as [k'|] eqn:Ek; [|done].
      destruct (find_newest _ _); [done|]. intros [= <-]. by apply Hk.
    - intros [= <-]. by apply Hrn. }
  set (w2 := for_each _ _ w1).
  assert (H2 : bound_to n w2).
  { apply for_each_preserves; [|done]. intros i w'. apply listen_job_bound. }
  destruct H2 as (Hn & Hk & Hcs & Hl & Hp). repeat split; simpl; try done.
  apply Forall_fmap. eapply Forall_impl; [|exact Hp].
  intros pb Hpb k. simpl. unfold publish_job, publish_then.
  destruct (p_state pb) eqn:E; simpl; rewrite ?E; try done.
  - destruct (collection (chan w2)) as [k'|] eqn:Ek; [|done]. intros [= <-]. by apply Hk.
  - intros [= <-]. by apply Hpb.
Qed.

Lemma macro_bound n l w w' : bound_to n w -> macro l w = Some w' -> bound_to n w'.
Proof.
  intros B H. pose proof B as (Hn & Hk & Hcs & Hl & Hp). destruct l; simpl in H.
  - by injection H as <-.
  - by injection H as <-.
  - injection H as <-. unfold publish, ready.
    destruct (collection (chan w)) eqn:E; repeat split; simpl; try done;
      first [ by rewrite E
            | (apply Forall_app; split; [done|]); by repeat constructor ].
  - unfold close in H. simpl in H. by destruct (cursor (chan w)); injection H as <-.
  - destruct (db (conn w)); [done|]. by injection H as <-.
  - by injection H as <-.
  - destruct (creating w); [done|]. injection H as <-. unfold create_callback.
    destruct err as [msg|].
    + destruct (String.eqb msg _); [by apply create_bound|].
      destruct (throws _ _); [done | by apply emit_bound].
    + apply emit_bound. repeat split; simpl; try done. intros k [= <-]. done.
  - destruct (listens w !! r) as [rn|]; [|done]. destruct (l_latest rn); try done.
    unfold latest_inserted, store_insert, store_skip in H.
    destruct o; simpl in H; injection H as <-; repeat split; simpl; try done;
      by apply Forall_insert.
  - destruct (pubs w !! p) as [pb|]; [|done]. destruct (p_state pb); try done.
    unfold publish_inserted, store_insert, store_skip in H.
    destruct o; simpl in H; injection H as <-; repeat split; simpl; try done;
      by apply Forall_insert.
  - destruct who as [r|i].
    + destruct (listens w !! r) as [rn|]; [|done].
      destruct (l_close rn); [|done]. injection H as <-.
      destruct (cursor_closed_bound n c w B) as (Hn' & Hk' & Hcs' & Hl' & Hp').
      repeat split; simpl; try done. apply Forall_alter; [done|]. by intros x _ Hx.
    + destruct (closes w !! i) as [[c|]|]; try done. injection H as <-.
      destruct (cursor_closed_bound n c w B) as (Hn' & Hk' & Hcs' & Hl' & Hp').
      by repeat split.
  - destruct (cursors w !! c) as [cr|] eqn:Hc; [|done]. destruct (c_alive cr); [|done].
    destruct (cursor_next _ _) as [d|]; [|done]. injection H as <-.
    apply on_data_bound. repeat split; simpl; try done.
    apply Forall_insert; [done|]. simpl. by eapply (Forall_lookup_1 _ _ _ _ Hcs).
  - destruct (cursors w !! c) as [cr|]; [|done]. destruct (c_alive cr); [|done].
    injection H as <-. by apply cursor_closed_bound.
  - by injection H as <-.
  - by injection H as <-.
  - by injection H as <-.
Qed.

Lemma step_bound n l w w' : bound_to n w -> step l w = Some w' -> bound_to n w'.
Proof.
  unfold step. intros B H. destruct (macro l w) as [w1|] eqn:Hm; [|done].
  injection H as <-. eapply settle_bound, macro_bound; eauto.
Qed.

Lemma Channel_bound connection s nm o :
  bound_to (name_or_default nm) (Channel connection s nm o).
Proof.
  unfold Channel. apply listen_bound, create_bound. by repeat split.
Qed.


(** * Further properties of the channel *)

(** ** subscribe and unsubscribe *)

Lemma subscribers_In cb ls : In (LSub cb) ls -> In cb (subscribers ls).
Proof.
  induction ls as [|l ls IH]; [done|]. intros [->|H]; simpl.
  - by left.
  - destruct l; simpl; auto.
Qed.

Lemma listeners_of_In ev l ls : In (ev, l) ls -> In l (listeners_of ev ls).
Proof.
  intros H. unfold listeners_of. apply (in_map snd _ (ev, l)).
  apply filter_In. split; [done|]. unfold on_event. simpl. apply String.eqb_refl.
Qed.

Lemma calls_In cb ev a ls :
  In (ev, LSub cb) ls -> In {| o_cb := cb; o_event := ev; o_arg := a |} (calls ls ev a).
Proof.
  intros H. unfold calls.
  apply (in_map (fun cb => {| o_cb := cb; o_event := ev; o_arg := a |})).
  by apply subscribers_In, listeners_of_In.
Qed.

Lemma throws_handled ev l ls : In ("error", l) ls -> throws ev ls = false.
Proof.
  intros H. unfold throws. apply listeners_of_In in H.
  destruct (listeners_of "error" ls); [done|]. apply andb_false_r.
Qed.

Lemma subscribers_app l k : subscribers (l ++ k) = subscribers l ++ subscribers k.
Proof.
  induction l as [|x l IH]; [done|]. destruct x; simpl; by rewrite IH.
Qed.

Lemma subscribers_added ev cb ls :
  subscribers (listeners_of ev (ls ++ [(ev, LSub cb)]))
  = subscribers (listeners_of ev ls) ++ [cb].
Proof.
  unfold listeners_of. rewrite filter_app, fmap_app, subscribers_app. simpl.
  unfold on_event. simpl. by rewrite String.eqb_refl.
Qed.

(** X1: a callback subscribed to an event name is called, with the payload,
    for a document of that non-empty name that the stream delivers to a
    tailing channel; a callback subscribed without a name is called under
    'message' for such a document (for the name 'error', when some callback
    is subscribed to 'error'). *)
Theorem subscribed_callback_is_called (w : world) (ev : string) (cb : nat) (d : doc) :
  closed (chan w) = false -> destroyed (conn w) = false ->
  event d = Some ev -> ev <> "" ->
  In {| o_cb := cb; o_event := ev; o_arg := AMsg (message d) |}
     (trace (on_data d (subscribe (Some ev) cb w))) /\
  (deliverable (listeners (chan w)) d ->
   In {| o_cb := cb; o_event := "message"; o_arg := AMsg (message d) |}
      (trace (on_data d (subscribe None cb w)))).
Proof.
  intros Hc Hd He Hne.
  assert (Hh : has_event d = true).
  { unfold has_event. rewrite He. apply negb_true_iff. by apply String.eqb_neq. }
  split.
  - rewrite on_data_trace; [|done|done|].
    + apply in_or_app. right. unfold routed. rewrite He, Hh.
      apply in_or_app. left. apply in_or_app. left. apply calls_In.
      simpl. apply in_or_app. right. by left.
    + intros He'. rewrite He in He'. injection He' as ->. simpl.
      rewrite subscribers_added. intros E. by apply app_eq_nil in E as [_ ?].
  - intros Hv. rewrite on_data_trace; [|done|done|].
    + apply in_or_app. right. unfold routed. rewrite He, Hh.
      apply in_or_app. left. apply in_or_app. right. apply calls_In.
      simpl. apply in_or_app. right. by left.
    + intros He'. specialize (Hv He'). simpl.
      unfold listeners_of in *. rewrite filter_app, fmap_app, subscribers_app.
      intros E. by apply app_eq_nil in E as [? _].
Qed.

Lemma subscribed_callback_is_called_witness :
  In {| o_cb := 5; o_event := "foo"; o_arg := AMsg (message doc_foo) |}
     (trace (on_data doc_foo (subscribe (Some "foo") 5 tailing_channel))) /\
  (deliverable (listeners (chan tailing_channel)) doc_foo ->
   In {| o_cb := 5; o_event := "message"; o_arg := AMsg (message doc_foo) |}
      (trace (on_data doc_foo (subscribe None 5 tailing_channel)))).
Proof.
  apply (subscribed_callback_is_called tailing_channel "foo" 5 doc_foo).
  - vm_compute. reflexivity.
  - vm_compute. reflexivity.
  - reflexivity.
  - discriminate.
Defined.

Lemma remove_first_absent ev cb l :
  ~ In (ev, LSub cb) l -> remove_first ev cb l = l.
Proof.
  induction l as [|[e x] l IH]; [done|]. intros Hn. simpl.
  assert (Hl : remove_first ev cb l = l) by (apply IH; intros H; apply Hn; by right).
  destruct x as [c| |]; rewrite ?Hl; try done.
  destruct (String.eqb e ev && Nat.eqb c cb) eqn:E; [|done].
  apply andb_true_iff in E as [E1 E2].
  apply String.eqb_eq in E1 as ->. apply Nat.eqb_eq in E2 as ->.
  destruct Hn. by left.
Qed.

Lemma remove_first_present ev cb l :
  In (ev, LSub cb) l ->
  exists l1 l2, l = l1 ++ (ev, LSub cb) :: l2 /\ ~ In (ev, LSub cb) l1 /\
                remove_first ev cb l = l1 ++ l2.
Proof.
  induction l as [|[e x] l IH]; [done|]. intros Hin. simpl.
  destruct (decide ((e, x) = (ev, LSub cb))) as [[= -> ->]|Hne].
  - exists [], l. rewrite String.eqb_refl, Nat.eqb_refl. simpl.
    split; [done|]. split; [intros []|done].
  - destruct Hin as [H|Hin]; [done|].
    destruct (IH Hin) as (l1 & l2 & -> & Hn & ->).
    exists ((e, x) :: l1), l2. split; [done|]. split.
    + intros [H|H]; [done | by apply Hn].
    + destruct x as [c| |]; try done.
      destruct (String.eqb e ev && Nat.eqb c cb) eqn:E; [|done].
      apply andb_true_iff in E as [E1 E2].
      apply String.eqb_eq in E1 as ->. apply Nat.eqb_eq in E2 as ->. done.
Qed.

Lemma removeListener_absent ev cb ls :
  ~ In (ev, LSub cb) ls -> removeListener ev cb ls = ls.
Proof.
  intros Hn. unfold removeListener. rewrite remove_first_absent.
  - apply rev_involutive.
  - intros H. apply Hn. by apply in_rev.
Qed.

Lemma removeListener_present ev cb ls :
  In (ev, LSub cb) ls ->
  exists l1 l2, ls = l1 ++ (ev, LSub cb) :: l2 /\ ~ In (ev, LSub cb) l2 /\
                removeListener ev cb ls = l1 ++ l2.
Proof.
  intros Hin. unfold removeListener.
  destruct (remove_first_present ev cb (rev ls)) as (k1 & k2 & E & Hn & ->).
  { by apply in_rev in Hin. }
  exists (rev k2), (rev k1). split; [|split].
  - rewrite <- (rev_involutive ls), E, rev_app_distr. simpl. by rewrite <- app_assoc.
  - intros H. apply Hn. by apply in_rev.
  - apply rev_app_distr.
Qed.

Lemma set_listeners_same ch : set_listeners (listeners ch) ch = ch.
Proof. by destruct ch. Qed.

(** X2: [unsubscribe] undoes the [subscribe] that returned it: the channel
    is as it was before the two calls, whatever else was subscribed. *)
Theorem unsubscribe_undoes_subscribe (ev : option string) (cb : nat) (w : world) :
  unsubscribe ev cb (subscribe ev cb w) = w.
Proof.
  unfold unsubscribe, subscribe, add_listener. destruct w as [ch c s n cs ls cl ps t].
  unfold with_chan. simpl. f_equal. destruct ch as [a b r cl' nm k cu l]. simpl.
  unfold set_listeners. simpl. f_equal. unfold removeListener.
  rewrite rev_app_distr. simpl. rewrite String.eqb_refl, Nat.eqb_refl. simpl.
  apply rev_involutive.
Qed.

(** X3: [unsubscribe] of a callback that is not (or no longer) subscribed
    under that name changes nothing, so calling it twice is harmless. *)
Theorem unsubscribe_absent_is_noop (ev : option string) (cb : nat) (w : world) :
  ~ In (default "message" ev, LSub cb) (listeners (chan w)) ->
  unsubscribe ev cb w = w.
Proof.
  intros Hn. unfold unsubscribe. apply with_chan_same.
  rewrite removeListener_absent by done. apply set_listeners_same.
Qed.

Lemma unsubscribe_absent_is_noop_witness :
  unsubscribe (Some "bar") 7 tailing_channel = tailing_channel.
Proof.
  apply unsubscribe_absent_is_noop. vm_compute.
  intros H. repeat (destruct H as [H|H]; [discriminate H|]). exact H.
Defined.

(** X4: [unsubscribe] removes exactly one registration, the one added last
    for that name and callback; every other listener, the resolvers the
    channel itself put on 'collection' and 'ready' included, stays in
    place and in order, and nothing else of the channel changes. *)
Theorem unsubscribe_removes_one (ev : option string) (cb : nat) (w : world) :
  In (default "message" ev, LSub cb) (listeners (chan w)) ->
  exists l1 l2,
    listeners (chan w) = l1 ++ (default "message" ev, LSub cb) :: l2 /\
    ~ In (default "message" ev, LSub cb) l2 /\
    unsubscribe ev cb w = with_chan (set_listeners (l1 ++ l2)) w.
Proof.
  intros Hin. destruct (removeListener_present _ _ _ Hin) as (l1 & l2 & E & Hn & R).
  exists l1, l2. split; [done|]. split; [done|].
  unfold unsubscribe, with_chan. simpl. by rewrite R.
Qed.

Lemma unsubscribe_removes_one_witness :
  exists l1 l2,
    listeners (chan tailing_channel) = l1 ++ ("message", LSub 8) :: l2 /\
    ~ In ("message", LSub 8) l2 /\
    unsubscribe None 8 tailing_channel = with_chan (set_listeners (l1 ++ l2)) tailing_channel.
Proof.
  apply (unsubscribe_removes_one None 8 tailing_channel).
  vm_compute. right. by left.
Defined.

(** ** create *)

Lemma with_creating_same w : with_creating (creating w) w = w.
Proof. by destruct w. Qed.

Lemma create_retry_turn (w w' : world) :
  db (conn w) = true ->
  macro (CreateDone (Some "collection already exists")) w = Some w' ->
  w' = w.
Proof.
  intros Hdb H. simpl in H. destruct (creating w) as [|n] eqn:Hc; [done|].
  injection H as <-. unfold create. simpl. rewrite Hdb.
  rewrite <- (with_creating_same w) at 2. rewrite Hc. by destruct w.
Qed.

(** X5: when [createCollection] answers 'collection already exists' on a
    connected channel, the request is issued again and nothing else
    happens, however often the answer comes: after any number of such
    answers a channel at rest is exactly as it was, with the same requests
    in flight, no 'error' emitted, no collection set and no stream opened. *)
Theorem create_retries_when_collection_exists (n : nat) (w : world) :
  db (conn w) = true ->
  (0 < creating w)%nat ->
  settle w = w ->
  run (replicate n (CreateDone (Some "collection already exists"))) w = Some w.
Proof.
  intros Hdb Hc Hs. induction n as [|n IH]; [done|].
  change (replicate (S n) ?x) with (x :: replicate n x).
  cbn [run]. unfold step.
  destruct (macro (CreateDone (Some "collection already exists")) w) as [w'|] eqn:Hm.
  - apply (create_retry_turn w w' Hdb) in Hm. subst w'. cbn [fmap option_fmap option_map].
    rewrite Hs. exact IH.
  - exfalso. simpl in Hm. destruct (creating w); [lia|done].
Qed.

Lemma create_retries_when_collection_exists_witness :
  run (replicate 3 (CreateDone (Some "collection already exists"))) fresh_channel
  = Some fresh_channel.
Proof.
  apply (create_retries_when_collection_exists 3 fresh_channel).
  - reflexivity.
  - vm_compute. lia.
  - vm_compute. reflexivity.
Defined.

Lemma count_zero_lookup {A} (P : A -> bool) (l : list A) i x :
  count P l = 0%nat -> l !! i = Some x -> P x = false.
Proof.
  intros Hz Hl. destruct (P x) eqn:E; [|done].
  pose proof (count_lookup P i x l Hl E). lia.
Qed.

Lemma cursor_closed_none c w : open_streams w = 0%nat -> cursor_closed c w = w.
Proof.
  intros Ho. unfold cursor_closed. destruct (cursors w !! c) as [cr|] eqn:Hc; [|done].
  by rewrite (count_zero_lookup _ _ _ _ Ho Hc).
Qed.

Lemma listen_job_stranded r w :
  stranded w -> stranded (listen_job r w) /\ inert w (listen_job r w).
Proof.
  intros S. pose proof S as (Hk & Hc & Hw & Ho). unfold listen_job.
  destruct (listens w !! r) as [rn|]; [|split; [done | apply inert_refl]].
  destruct (l_latest rn); try (split; [done | apply inert_refl]).
  destruct (l_close rn); try (split; [done | apply inert_refl]).
  destruct (l_fin rn); try (split; [done | apply inert_refl]).
  unfold listen_then. simpl. rewrite Hk.
  split; [done|]. repeat split; simpl; try done. apply length_insert.
Qed.

Lemma settle_stranded w : stranded w -> stranded (settle w) /\ inert w (settle w).
Proof.
  intros S. unfold settle.
  set (w1 := with_listens (latest_job w <$> listens w) w).
  assert (S1 : stranded w1 /\ inert w w1).
  { split; [done|]. repeat split; simpl; try done. apply length_fmap. }
  set (w2 := for_each _ _ w1).
  assert (S2 : stranded w2 /\ inert w w2).
  { apply (for_each_preserves (fun w' => stranded w' /\ inert w w')); [|done].
    intros i w' [Sw Iw]. destruct (listen_job_stranded i w' Sw) as [S' I'].
    split; [done|]. by eapply inert_trans. }
  destruct S2 as [S2 I2]. split; [done|].
  eapply inert_trans; [exact I2|]. repeat split; simpl; try done.
  intros p pb Hp Hs. rewrite list_lookup_fmap, Hp. simpl.
  unfold publish_job. by rewrite Hs.
Qed.

Lemma macro_stranded l w w' :
  stranded w -> macro l w = Some w' -> stranded w' /\ inert w w'.
Proof.
  intros S H. pose proof S as (Hk & Hc & Hw & Ho). destruct l; simpl in H.
  - injection H as <-. split; [done|]. by repeat split.
  - injection H as <-. split; [done|]. by repeat split.
  - injection H as <-. unfold publish, ready. rewrite Hk.
    split; [done|]. repeat split; simpl; try done.
    intros p pb Hpb _. by apply lookup_app_l_Some.
  - unfold close in H. simpl in H.
    destruct (cursor (chan w)); injection H as <-; (split; [done|]); by repeat split.
  - destruct (db (conn w)); [done|]. injection H as <-.
    split; [|by repeat split]. repeat split; simpl; try done. lia.
  - injection H as <-. split; [done|]. by repeat split.
  - by rewrite Hc in H.
  - destruct (listens w !! r) as [rn|] eqn:Hl; [|done].
    destruct (l_latest rn); try done.
    unfold latest_inserted, store_insert, store_skip in H.
    destruct o; simpl in H; injection H as <-; (split; [done|]);
      repeat split; simpl; try done; apply length_insert.
  - destruct (pubs w !! p) as [pb|] eqn:Hpb; [|done].
    destruct (p_state pb) eqn:Hs; try done.
    unfold publish_inserted, store_insert, store_skip in H.
    destruct o; simpl in H; injection H as <-; (split; [done|]);
      repeat split; simpl; try done;
      intros p' pb' Hp' Hs'; (rewrite list_lookup_insert_ne; [done|]);
      intros ->; congruence.
  - destruct who as [r|i].
    + destruct (listens w !! r) as [rn|]; [|done].
      destruct (l_close rn); [|done]. injection H as <-.
      rewrite cursor_closed_none by done.
      split; [done|]. repeat split; simpl; try done. apply length_alter.
    + destruct (closes w !! i) as [[c|]|]; try done. injection H as <-.
      rewrite cursor_closed_none by done. split; [done|]. by repeat split.
  - destruct (cursors w !! c) as [cr|] eqn:Hl; [|done].
    by rewrite (count_zero_lookup _ _ _ _ Ho Hl) in H.
  - destruct (cursors w !! c) as [cr|] eqn:Hl; [|done].
    by rewrite (count_zero_lookup _ _ _ _ Ho Hl) in H.
  - injection H as <-. split; [done|]. by repeat split.
  - injection H as <-. split; [done|]. by repeat split.
  - injection H as <-. split; [done|]. by repeat split.
Qed.

Lemma run_stranded ls w w' :
  stranded w -> run ls w = Some w' -> stranded w' /\ inert w w'.
Proof.
  revert w. induction ls as [|l ls IH]; intros w S H; simpl in H.
  - injection H as <-. split; [done | apply inert_refl].
  - unfold step in H. destruct (macro l w) as [w1|] eqn:Hm; [|done]. simpl in H.
    destruct (macro_stranded _ _ _ S Hm) as [S1 I1].
    destruct (settle_stranded _ S1) as [S2 I2].
    destruct (IH _ S2 H) as [S3 I3]. split; [done|].
    eapply inert_trans; [exact I1|]. by eapply inert_trans.
Qed.

(** X6: a [createCollection] error other than 'collection already exists'
    is final.  When it arrives for the only outstanding request of a channel
    that has no collection and no open stream, the error goes to the 'error'
    callbacks and to no one else, and through every later run of the
    event loop no further callback is called, no provisioning run is
    started, no stream is opened and the collection stays unset. *)
Theorem failed_create_is_final (msg : string) (w : world) (ls : list label) (w' : world) :
  collection (chan w) = None -> creating w = 1%nat ->
  connect_waiters (conn w) = 0%nat -> open_streams w = 0%nat ->
  msg <> "collection already exists" ->
  run (CreateDone (Some msg) :: ls) w = Some w' ->
  trace w' = trace w ++ calls (listeners (chan w)) "error" (AErr msg) /\
  stranded w' /\
  length (cursors w') = length (cursors w) /\
  length (listens w') = length (listens w).
Proof.
  intros Hk Hc Hw Ho Hmsg H. simpl in H. unfold step in H. simpl in H.
  rewrite Hc in H. simpl in H. unfold create_callback in H.
  apply String.eqb_neq in Hmsg. rewrite Hmsg in H. simpl in H.
  set (w0 := with_creating 0 w) in *.
  assert (S0 : stranded w0) by done.
  destruct (throws "error" (listeners (chan w))) eqn:Ht.
  - destruct (settle_stranded _ S0) as [S1 I1].
    destruct (run_stranded _ _ _ S1 H) as [S2 I2].
    destruct (inert_trans _ _ _ I1 I2) as (T & L & C & K & P).
    assert (Hcalls : calls (listeners (chan w)) "error" (AErr msg) = []).
    { unfold calls, throws in *. simpl in Ht.
      destruct (listeners_of "error" (listeners (chan w))); [done | discriminate Ht]. }
    rewrite Hcalls, app_nil_r.
    split; [exact T|]. split; [exact S2|]. split; [exact C | exact L].
  - pose proof (emit_frame "error" (AErr msg) w0) as F.
    pose proof (emit_job_frame "error" (AErr msg) w0) as J.
    pose proof (emit_trace "error" (AErr msg) w0) as T0.
    set (w1 := emit "error" (AErr msg) w0) in *.
    assert (S1 : stranded w1).
    { destruct F as (_ & _ & Fk & _ & _ & Fc & _ & Fcr & Fcs & _).
      unfold stranded, open_streams. by rewrite Fk, Fc, Fcr, Fcs. }
    destruct (settle_stranded _ S1) as [S2 I2].
    destruct (run_stranded _ _ _ S2 H) as [S3 I3].
    destruct (inert_trans _ _ _ I2 I3) as (T & L & C & K & P).
    destruct F as (_ & _ & Fk & _ & _ & _ & _ & _ & Fcs & _).
    destruct J as (_ & _ & _ & _ & _ & _ & _ & Jl & _ & _).
    split; [by rewrite T, T0|]. split; [done|]. split.
    + by rewrite C, Fcs.
    + by rewrite L, Jl.
Qed.

Lemma failed_create_is_final_witness :
  trace (after [CreateDone (Some "not authorized"); Close; Publish "foo" "m"]
               (after [Subscribe (Some "error") 1] fresh_channel))
  = trace (after [Subscribe (Some "error") 1] fresh_channel)
    ++ calls (listeners (chan (after [Subscribe (Some "error") 1] fresh_channel)))
             "error" (AErr "not authorized") /\
  stranded (after [CreateDone (Some "not authorized"); Close; Publish "foo" "m"]
                  (after [Subscribe (Some "error") 1] fresh_channel)) /\
  length (cursors (after [CreateDone (Some "not authorized"); Close; Publish "foo" "m"]
                         (after [Subscribe (Some "error") 1] fresh_channel)))
  = length (cursors (after [Subscribe (Some "error") 1] fresh_channel)) /\
  length (listens (after [CreateDone (Some "not authorized"); Close; Publish "foo" "m"]
                         (after [Subscribe (Some "error") 1] fresh_channel)))
  = length (listens (after [Subscribe (Some "error") 1] fresh_channel)).
Proof.
  apply (failed_create_is_final "not authorized"
           (after [Subscribe (Some "error") 1] fresh_channel)
           [Close; Publish "foo" "m"]).
  - vm_compute. reflexivity.
  - vm_compute. reflexivity.
  - vm_compute. reflexivity.
  - vm_compute. reflexivity.
  - discriminate.
  - vm_compute. reflexivity.
Defined.

(** X7: on a channel whose provisioning has failed for good (no
    collection, no request outstanding, no open stream), a [publish] is
    suspended on 'ready' and stays suspended through every later run of the
    event loop; nothing is written to the log store by it and no callback
    is called. *)
Theorem publish_on_stranded_never_resolves
    (ev msg : string) (w : world) (ls : list label) (w' : world) :
  stranded w -> run (Publish ev msg :: ls) w = Some w' ->
  pubs w' !! length (pubs w)
  = Some {| p_event := ev; p_message := msg; p_state := PWait |} /\
  trace w' = trace w /\ stranded w'.
Proof.
  intros S H. simpl in H. unfold step in H. simpl in H.
  pose proof S as (Hk & _).
  assert (Sp : stranded (publish ev msg w)).
  { unfold publish, ready. rewrite Hk. exact S. }
  assert (Hp : pubs (publish ev msg w) !! length (pubs w)
               = Some {| p_event := ev; p_message := msg; p_state := PWait |}).
  { unfold publish, ready. rewrite Hk. simpl. by rewrite lookup_app_r, Nat.sub_diag. }
  assert (Ht : trace (publish ev msg w) = trace w).
  { unfold publish, ready. by rewrite Hk. }
  destruct (settle_stranded _ Sp) as [S1 I1].
  destruct (run_stranded _ _ _ S1 H) as [S2 I2].
  destruct (inert_trans _ _ _ I1 I2) as (T & _ & _ & _ & P).
  split; [by apply P|]. split; [by rewrite T|done].
Qed.

Lemma publish_on_stranded_never_resolves_witness :
  pubs (after [Publish "foo" "m"; Destroy]
              (after [CreateDone (Some "not authorized")] fresh_channel))
    !! length (pubs (after [CreateDone (Some "not authorized")] fresh_channel))
  = Some {| p_event := "foo"; p_message := "m"; p_state := PWait |} /\
  trace (after [Publish "foo" "m"; Destroy]
               (after [CreateDone (Some "not authorized")] fresh_channel))
  = trace (after [CreateDone (Some "not authorized")] fresh_channel) /\
  stranded (after [Publish "foo" "m"; Destroy]
                  (after [CreateDone (Some "not authorized")] fresh_channel)).
Proof.
  apply (publish_on_stranded_never_resolves "foo" "m"
           (after [CreateDone (Some "not authorized")] fresh_channel) [Destroy]).
  - unfold stranded.
    repeat match goal with |- _ /\ _ => split end; vm_compute; reflexivity.
  - vm_compute. reflexivity.
Defined.

Lemma settle_creating w : creating (settle w) = creating w.
Proof.
  destruct (settle_unfold w) as (w2 & F & ->). simpl.
  destruct F as (_ & _ & _ & _ & _ & E & _). by rewrite E.
Qed.

(** X8: a channel constructed on a connection that has no [db] yet asks
    for nothing: no [createCollection] answer can arrive; when the
    connection emits 'connect', exactly one [createCollection] is issued,
    and the name it is issued for is the name of the channel. *)
Theorem create_waits_for_connect
    (connection : Connection) (s : Store) (nm : option string) (o : Options) :
  db connection = false -> connect_waiters connection = 0%nat ->
  (forall err, step (CreateDone err) (Channel connection s nm o) = None) /\
  creating (Channel connection s nm o) = 0%nat /\
  exists w, step Connect (Channel connection s nm o) = Some w /\
            creating w = 1%nat /\ connect_waiters (conn w) = 0%nat /\
            db (conn w) = true /\ name (chan w) = name_or_default nm /\
            collection (chan w) = None.
Proof.
  intros Hdb Hw.
  assert (Hc : creating (Channel connection s nm o) = 0%nat).
  { unfold Channel, listen, create. simpl. by rewrite Hdb. }
  assert (Hd : db (conn (Channel connection s nm o)) = false).
  { unfold Channel, listen, create. simpl. by rewrite Hdb. }
  assert (Hcw : connect_waiters (conn (Channel connection s nm o)) = 1%nat).
  { unfold Channel, listen, create. simpl. by rewrite Hdb, Hw. }
  split; [|split; [done|]].
  - intros err. unfold step. simpl. by rewrite Hc.
  - eexists. split; [unfold step; simpl; rewrite Hd; reflexivity|].
    rewrite settle_creating, settle_conn, settle_name, settle_collection. simpl.
    rewrite Hc, Hcw. repeat split.
    unfold Channel, listen, create. simpl. by rewrite Hdb.
    unfold Channel, listen, create. simpl. by rewrite Hdb.
Qed.

Lemma create_waits_for_connect_witness :
  (forall err,
     step (CreateDone err)
          (Channel {| db := false; destroyed := false; connect_waiters := 0 |}
                   example_store None no_options) = None) /\
  creating (Channel {| db := false; destroyed := false; connect_waiters := 0 |}
                    example_store None no_options) = 0%nat /\
  exists w, step Connect (Channel {| db := false; destroyed := false; connect_waiters := 0 |}
                                  example_store None no_options) = Some w /\
            creating w = 1%nat /\ connect_waiters (conn w) = 0%nat /\
            db (conn w) = true /\ name (chan w) = name_or_default None /\
            collection (chan w) = None.
Proof. apply create_waits_for_connect; reflexivity. Defined.

(** ** The first start *)



(** X9: a channel constructed on a connected connection against an empty
    log reaches 'ready' by itself: the answer of [createCollection] sets the
    collection and makes [latest] write the dummy, and once the dummy is
    written the closed flag is cleared and one stream is open, anchored at
    the dummy as the store wrote it; the log holds the dummy alone, no
    callback has been called, and the stream has nothing to deliver: the
    dummy itself is never delivered. *)
Theorem first_start_on_empty_log
    (connection : Connection) (s : Store) (nm : option string) (o : Options) :
  db connection = true ->
  log_of (name_or_default nm) s = [] ->
  exists w1 w2,
    step (CreateDone None) (Channel connection s nm o) = Some w1 /\
    store w1 = s /\ cursors w1 = [] /\
    (l_latest <$> listens w1) = [LInsert (name_or_default nm)] /\
    step (LatestInsertDone 0 WriteOk) w1 = Some w2 /\
    closed (chan w2) = false /\
    collection (chan w2) = Some (name_or_default nm) /\
    cursor (chan w2) = Some 0%nat /\
    cursors w2 = [{| c_coll := name_or_default nm;
                     c_anchor := stored (next_id s) dummy_doc;
                     c_pos := next_id s; c_alive := true |}] /\
    log_of (name_or_default nm) (store w2) = [stored (next_id s) dummy_doc] /\
    trace w2 = [] /\
    step (CursorData 0) w2 = None.
Proof.
  intros Hdb Hlog. eexists. eexists. split.
  { unfold step, Channel, listen, create, latest, close. simpl. rewrite Hdb. simpl.
    unfold create_callback, emit. simpl.
    unfold settle. simpl. unfold latest_job. simpl. unfold latest_then. simpl.
    rewrite Hlog. simpl. unfold for_each. simpl. unfold listen_job. simpl.
    reflexivity. }
  split; [reflexivity|]. split; [reflexivity|]. split; [reflexivity|].
  split.
  { unfold step. simpl. unfold settle. simpl. unfold latest_job. simpl.
    unfold for_each. simpl. unfold listen_job. simpl.
    unfold listen_then, emit. simpl. reflexivity. }
  split; [reflexivity|]. split; [reflexivity|]. split; [reflexivity|].
  split; [reflexivity|].
  assert (Hl : log_of (name_or_default nm)
             (fst (store_insert (name_or_default nm) dummy_doc s))
           = [stored (next_id s) dummy_doc]) by (by rewrite log_of_insert, Hlog).
  split; [exact Hl|]. split; [reflexivity|].
  unfold step. simpl. unfold store_insert in Hl. simpl in Hl.
  rewrite Hl. unfold cursor_next. simpl. by rewrite Z.ltb_irrefl.
Qed.

Lemma first_start_on_empty_log_witness :
  exists w1 w2,
    step (CreateDone None) (Channel example_connection example_store (Some "t") no_options)
    = Some w1 /\
    store w1 = example_store /\ cursors w1 = [] /\
    (l_latest <$> listens w1) = [LInsert (name_or_default (Some "t"))] /\
    step (LatestInsertDone 0 WriteOk) w1 = Some w2 /\
    closed (chan w2) = false /\
    collection (chan w2) = Some (name_or_default (Some "t")) /\
    cursor (chan w2) = Some 0%nat /\
    cursors w2 = [{| c_coll := name_or_default (Some "t");
                     c_anchor := stored (next_id example_store) dummy_doc;
                     c_pos := next_id example_store; c_alive := true |}] /\
    log_of (name_or_default (Some "t")) (store w2)
    = [stored (next_id example_store) dummy_doc] /\
    trace w2 = [] /\
    step (CursorData 0) w2 = None.
Proof. apply first_start_on_empty_log; reflexivity. Defined.



(** ** The restart *)








(** ** The log of a channel and the logs of others *)

Lemma log_of_insert_ne m k n s :
  m <> k -> log_of m (fst (store_insert k n s)) = log_of m s.
Proof.
  intros Hne. unfold store_insert, log_of. simpl. by rewrite lookup_insert_ne.
Qed.

Lemma listen_store a w : store (listen a w) = store w.
Proof.
  unfold listen, latest, close.
  destruct (collection (chan w)); simpl; by destruct (cursor (chan w)).
Qed.

Lemma create_store w : store (create w) = store w.
Proof. unfold create. by destruct (db (conn w)). Qed.

Lemma on_close_store a w : store (on_close a w) = store w.
Proof.
  unfold on_close. destruct (closed (chan w) || destroyed (conn w)); [done|].
  destruct (throws _ _); [done|].
  pose proof (emit_frame "error" (AErr "Mubsub: broken cursor.") w)
    as (_ & _ & _ & _ & _ & _ & Es & _).
  destruct (truthy _); [|done]. by rewrite listen_store, create_store.
Qed.

Lemma cursor_closed_store c w : store (cursor_closed c w) = store w.
Proof.
  unfold cursor_closed. destruct (cursors w !! c) as [cr|]; [|done].
  destruct (c_alive cr); [|done]. by rewrite on_close_store.
Qed.

Lemma macro_other_logs n l w w' m :
  bound_to n w -> is_env l = false -> macro l w = Some w' -> m <> n ->
  log_of m (store w') = log_of m (store w).
Proof.
  intros (Hn & Hk & Hcs & Hl & Hp) He H Hm. destruct l; simpl in H; try done.
  - by injection H as <-.
  - by injection H as <-.
  - injection H as <-. unfold publish, ready. by destruct (collection (chan w)).
  - unfold close in H. simpl in H. by destruct (cursor (chan w)); injection H as <-.
  - destruct (db (conn w)); [done|]. by injection H as <-.
  - by injection H as <-.
  - destruct (creating w); [done|]. injection H as <-. unfold create_callback.
    destruct err as [msg|].
    + destruct (String.eqb msg _); [unfold create; by destruct (db _)|].
      destruct (throws _ _); [done|].
      by destruct (emit_frame "error" (AErr msg) (with_creating n0 w))
        as (_ & _ & _ & _ & _ & _ & -> & _).
    + by destruct (emit_frame "collection" (AColl (name (chan (with_creating n0 w))))
                  (with_chan (set_collection (Some (name (chan (with_creating n0 w)))))
                             (with_creating n0 w)))
        as (_ & _ & _ & _ & _ & _ & -> & _).
  - destruct (listens w !! r) as [rn|] eqn:Hr; [|done].
    destruct (l_latest rn) eqn:El; try done.
    pose proof (Forall_lookup_1 _ _ _ _ Hl Hr k El) as ->.
    unfold latest_inserted in H. destruct o; simpl in H; injection H as <-; simpl;
      try done. by apply log_of_insert_ne.
  - destruct (pubs w !! p) as [pb|] eqn:Hpb; [|done].
    destruct (p_state pb) eqn:Es; try done.
    pose proof (Forall_lookup_1 _ _ _ _ Hp Hpb k Es) as ->.
    unfold publish_inserted in H. destruct o; simpl in H; injection H as <-; simpl;
      try done. by apply log_of_insert_ne.
  - destruct who as [r|i].
    + destruct (listens w !! r) as [rn|]; [|done].
      destruct (l_close rn); [|done]. injection H as <-. simpl.
      by rewrite cursor_closed_store.
    + destruct (closes w !! i) as [[c|]|]; try done. injection H as <-. simpl.
      by rewrite cursor_closed_store.
  - destruct (cursors w !! c) as [cr|]; [|done]. destruct (c_alive cr); [|done].
    destruct (cursor_next _ _) as [d|]; [|done]. injection H as <-.
    by destruct (on_data_frame d (with_cursors (<[c:=set_pos (_id d) cr]> (cursors w)) w))
      as (_ & _ & _ & _ & _ & _ & -> & _).
  - destruct (cursors w !! c) as [cr|] eqn:Hc; [|done]. destruct (c_alive cr) eqn:Ha; [|done].
    injection H as <-. by rewrite cursor_closed_store.
Qed.

(** X12: a channel reads and writes the log of its own name only.  In every
    world it can reach, its collection handle, its streams and its writes
    in flight name that log, and no turn of the channel itself changes any
    other log of the store. *)
Theorem channel_keeps_to_its_log
    (connection : Connection) (s : Store) (nm : option string) (o : Options)
    (w : world) (l : label) (w' : world) (m : string) :
  reachable_from (Channel connection s nm o) w ->
  is_env l = false -> step l w = Some w' -> m <> name_or_default nm ->
  bound_to (name_or_default nm) w /\
  log_of m (store w') = log_of m (store w).
Proof.
  intros [ls R] He H Hm.
  assert (B : bound_to (name_or_default nm) w).
  { exact (run_preserves _ (step_bound (name_or_default nm)) ls _ _
             (Channel_bound connection s nm o) R). }
  split; [done|]. unfold step in H.
  destruct (macro l w) as [w1|] eqn:Hmac; [|done]. injection H as <-.
  rewrite settle_store. by eapply macro_other_logs.
Qed.

Lemma channel_keeps_to_its_log_witness :
  bound_to (name_or_default (Some "t")) tailing_channel /\
  log_of "u" (store (settle (publish "foo" "m" tailing_channel)))
  = log_of "u" (store tailing_channel).
Proof.
  apply (channel_keeps_to_its_log example_connection example_store (Some "t") no_options
           tailing_channel (Publish "foo" "m")).
  - exists [CreateDone None; LatestInsertDone 0 WriteOk;
            Subscribe (Some "foo") 7; Subscribe None 8; Subscribe (Some "document") 9;
            Subscribe (Some "error") 1].
    vm_compute. reflexivity.
  - reflexivity.
  - reflexivity.
  - discriminate.
Defined.

(** ** close, to the end *)

Lemma settle_idle w :
  provisioning w = 0%nat ->
  chan (settle w) = chan w /\ cursors (settle w) = cursors w /\
  closes (settle w) = closes w /\ trace (settle w) = trace w.
Proof.
  intros Hp. unfold settle.
  set (w1 := with_listens (latest_job w <$> listens w) w).
  assert (Hp1 : provisioning w1 = 0%nat).
  { unfold provisioning, w1. simpl.
    by rewrite count_fmap_same by apply unfinished_latest_job. }
  by rewrite for_each_listen_job_idle by exact Hp1.
Qed.

Lemma macro_close_done_user i c w :
  closes w !! i = Some (CWait c) ->
  macro (CloseDone (ByUser i)) w
  = Some (with_closes (<[i := CDone]> (closes (close_then (cursor_closed c w))))
                      (close_then (cursor_closed c w))).
Proof. intros H. simpl. by rewrite H. Qed.

(** X13: [close] on a channel that holds a cursor and has no provisioning
    under way sets the closed flag at once and asks the cursor to close;
    when the cursor has closed, the closed flag is still set, the
    references to the collection and to the cursor are released, the
    promise of [close] is resolved, the stream is no longer open, and no
    callback was called on the way. *)
Theorem close_releases_the_channel (w : world) (c : nat) (cr : cursor_rec) :
  idle w -> cursor (chan w) = Some c -> cursors w !! c = Some cr ->
  exists w1 w2,
    step Close w = Some w1 /\
    closed (chan w1) = true /\ closes w1 = closes w ++ [CWait c] /\
    step (CloseDone (ByUser (length (closes w)))) w1 = Some w2 /\
    closed (chan w2) = true /\ collection (chan w2) = None /\
    cursor (chan w2) = None /\
    closes w2 = closes w ++ [CDone] /\
    (c_alive <$> cursors w2 !! c) = Some false /\
    trace w2 = trace w.
Proof.
  intros (Hp & Hc & Hw) Hcur Hcr.
  set (w0 := with_closes (closes w ++ [CWait c]) (with_chan (set_closed true) w)).
  assert (Hm : macro Close w = Some w0).
  { simpl. unfold close. simpl. by rewrite Hcur. }
  destruct (settle_idle w0 Hp) as (S1 & S2 & S3 & S4).
  assert (Hq : quiet (settle w0)).
  { apply settle_quiet. by repeat split. }
  remember (settle w0) as w1 eqn:Ew1.
  assert (Hlk : closes w1 !! length (closes w) = Some (CWait c)).
  { rewrite S3. simpl. by rewrite lookup_app_r, Nat.sub_diag. }
  assert (Hcl1 : closed (chan w1) = true) by (by rewrite S1).
  assert (Hcr1 : cursors w1 !! c = Some cr) by (by rewrite S2).
  remember (close_then (cursor_closed c w1)) as wc eqn:Ewc.
  assert (Hcases : chan wc = set_cursor None (set_collection None (chan w1)) /\
                   closes wc = closes w1 /\ trace wc = trace w1 /\
                   provisioning wc = 0%nat /\
                   (c_alive <$> cursors wc !! c) = Some false).
  { subst wc. unfold cursor_closed. rewrite Hcr1. unfold on_close. simpl.
    rewrite Hcl1. simpl. destruct Hq as ((Hq & _) & _).
    destruct (c_alive cr) eqn:Ha; simpl.
    - repeat split; try done.
      rewrite list_lookup_insert_eq by (by eapply lookup_lt_Some). done.
    - repeat split; try done. by rewrite Hcr1, <- Ha. }
  destruct Hcases as (Ech & Ecl & Etr & Epr & Eal).
  destruct (settle_idle (with_closes (<[length (closes w) := CDone]> (closes wc)) wc) Epr)
    as (T1 & T2 & T3 & T4).
  exists w1, (settle (with_closes (<[length (closes w) := CDone]> (closes wc)) wc)).
  split; [unfold step; rewrite Hm, Ew1; reflexivity|].
  split; [done|]. split; [by rewrite S3|].
  split.
  { unfold step. rewrite (macro_close_done_user _ c) by done. by rewrite <- Ewc. }
  rewrite T1, T2, T3, T4. simpl. rewrite Ech, Ecl, Etr. simpl.
  split; [done|]. split; [done|]. split; [done|].
  split.
  - rewrite S3. simpl. rewrite insert_app_r_alt by done. by rewrite Nat.sub_diag.
  - split; [done|]. by rewrite S4.
Qed.

Lemma close_releases_the_channel_witness :
  exists w1 w2,
    step Close tailing_channel = Some w1 /\
    closed (chan w1) = true /\ closes w1 = closes tailing_channel ++ [CWait 0] /\
    step (CloseDone (ByUser (length (closes tailing_channel)))) w1 = Some w2 /\
    closed (chan w2) = true /\ collection (chan w2) = None /\
    cursor (chan w2) = None /\
    closes w2 = closes tailing_channel ++ [CDone] /\
    (c_alive <$> cursors w2 !! 0%nat) = Some false /\
    trace w2 = trace tailing_channel.
Proof.
  apply (close_releases_the_channel tailing_channel 0 tailing_cursor).
  - unfold idle. repeat match goal with |- _ /\ _ => split end; vm_compute; reflexivity.
  - vm_compute. reflexivity.
  - vm_compute. reflexivity.
Defined.

(** ** From publish to the subscribers *)

Lemma cursor_next_appended p lg d :
  cursor_next p lg = None -> p < _id d -> cursor_next p (lg ++ [d]) = Some d.
Proof.
  unfold cursor_next. intros Hn Hlt. rewrite filter_app.
  destruct (List.filter _ lg) as [|x l]; [|done]. simpl.
  by replace (p <? _id d) with true by (symmetry; apply Z.ltb_lt; lia).
Qed.

Lemma settle_idle_prov w : provisioning w = 0%nat -> provisioning (settle w) = 0%nat.
Proof.
  intros Hp. unfold settle.
  set (w1 := with_listens (latest_job w <$> listens w) w).
  assert (Hp1 : provisioning w1 = 0%nat).
  { unfold provisioning, w1. simpl.
    by rewrite count_fmap_same by apply unfinished_latest_job. }
  by rewrite for_each_listen_job_idle by exact Hp1.
Qed.

(** X14: from [publish] to the subscribers.  On a tailing channel with no
    provisioning under way, whose stream has delivered all the log holds, a
    [publish] whose write the store accepts is appended under the next
    position, and the next 'data' event of the stream delivers exactly that
    entry: the callbacks of its name, the 'message' callbacks and the
    'document' observers are called for it, in this order, and no other
    callback is. *)
Theorem published_entry_is_delivered
    (ev msg : string) (w : world) (c : nat) (cr : cursor_rec) (k : string) :
  provisioning w = 0%nat ->
  closed (chan w) = false -> destroyed (conn w) = false ->
  collection (chan w) = Some k ->
  cursors w !! c = Some cr -> c_alive cr = true -> c_coll cr = k ->
  cursor_next (c_pos cr) (log_of k (store w)) = None ->
  c_pos cr < next_id (store w) ->
  deliverable (listeners (chan w)) (stored (next_id (store w)) (event_doc ev msg)) ->
  exists w1 w2 w3,
    step (Publish ev msg) w = Some w1 /\
    step (PublishDone (length (pubs w)) WriteOk) w1 = Some w2 /\
    step (CursorData c) w2 = Some w3 /\
    log_of k (store w3)
    = log_of k (store w) ++ [stored (next_id (store w)) (event_doc ev msg)] /\
    trace w3
    = trace w ++ routed (listeners (chan w)) (stored (next_id (store w)) (event_doc ev msg)) /\
    (c_pos <$> cursors w3 !! c) = Some (next_id (store w)).
Proof.
  intros Hp Hcl Hde Hk Hc Ha Hco Hdr Hlt Hdl.
  set (d := stored (next_id (store w)) (event_doc ev msg)) in *.
  (* publish *)
  assert (Hp0 : provisioning (publish ev msg w) = 0%nat).
  { unfold publish, ready. by rewrite Hk. }
  destruct (settle_idle _ Hp0) as (A1 & A2 & A3 & A4).
  pose proof (settle_idle_prov _ Hp0) as A5.
  assert (Hpb : pubs (settle (publish ev msg w)) !! length (pubs w)
                = Some {| p_event := ev; p_message := msg; p_state := PInsert k |}).
  { rewrite (settle_pub _ _ {| p_event := ev; p_message := msg; p_state := PReady |});
      [| unfold publish, ready; rewrite Hk; simpl; by rewrite lookup_app_r, Nat.sub_diag
       | done].
    simpl. unfold publish_then, publish, ready. rewrite Hk. simpl. by rewrite Hk. }
  assert (A6 : store (settle (publish ev msg w)) = store w).
  { rewrite settle_store. unfold publish, ready. by rewrite Hk. }
  assert (A7 : conn (settle (publish ev msg w)) = conn w).
  { rewrite settle_conn. unfold publish, ready. by rewrite Hk. }
  assert (A1' : chan (settle (publish ev msg w)) = chan w).
  { rewrite A1. unfold publish, ready. by rewrite Hk. }
  assert (A2' : cursors (settle (publish ev msg w)) = cursors w).
  { rewrite A2. unfold publish, ready. by rewrite Hk. }
  assert (A4' : trace (settle (publish ev msg w)) = trace w).
  { rewrite A4. unfold publish, ready. by rewrite Hk. }
  remember (settle (publish ev msg w)) as w1 eqn:E1.
  (* the write *)
  set (m2 := with_pubs (<[length (pubs w) :=
                           {| p_event := ev; p_message := msg; p_state := PResolved d |}]>
                          (pubs w1))
               (with_store (fst (store_insert k (event_doc ev msg) (store w1))) w1)).
  assert (Hm2 : macro (PublishDone (length (pubs w)) WriteOk) w1 = Some m2).
  { simpl. rewrite Hpb. simpl. unfold m2, d. by rewrite A6. }
  assert (Hp2 : provisioning m2 = 0%nat) by exact A5.
  destruct (settle_idle _ Hp2) as (B1 & B2 & B3 & B4).
  pose proof (settle_idle_prov _ Hp2) as B5.
  assert (B6 : log_of k (store (settle m2)) = log_of k (store w) ++ [d]).
  { rewrite settle_store. unfold m2. simpl. rewrite A6. unfold log_of at 1. simpl.
    by rewrite lookup_insert_eq. }
  assert (B7 : conn (settle m2) = conn w) by (by rewrite settle_conn).
  assert (B1' : chan (settle m2) = chan w) by (by rewrite B1).
  assert (B2' : cursors (settle m2) = cursors w) by (by rewrite B2).
  assert (B4' : trace (settle m2) = trace w) by (by rewrite B4).
  remember (settle m2) as w2 eqn:E2.
  (* the stream *)
  set (m3 := on_data d (with_cursors (<[c := set_pos (_id d) cr]> (cursors w2)) w2)).
  assert (Hm3 : macro (CursorData c) w2 = Some m3).
  { simpl. rewrite B2', Hc, Ha, Hco, B6.
    rewrite (cursor_next_appended _ _ d Hdr) by exact Hlt. unfold m3. by rewrite B2'. }
  assert (Hp3 : provisioning m3 = 0%nat).
  { unfold m3.
    destruct (on_data_frame d (with_cursors (<[c := set_pos (_id d) cr]> (cursors w2)) w2))
      as (_ & _ & _ & _ & _ & _ & _ & _ & _ & _ & ->). exact B5. }
  destruct (settle_idle _ Hp3) as (C1 & C2 & C3 & C4).
  exists w1, w2, (settle m3).
  split; [unfold step; simpl; by rewrite E1|].
  split; [unfold step; rewrite Hm2; by rewrite E2|].
  split; [unfold step; by rewrite Hm3|].
  split; [|split].
  - rewrite settle_store. unfold m3.
    destruct (on_data_frame d (with_cursors (<[c := set_pos (_id d) cr]> (cursors w2)) w2))
      as (_ & _ & _ & _ & _ & _ & -> & _). exact B6.
  - rewrite C4. unfold m3. rewrite on_data_trace.
    + simpl. by rewrite B4', B1'.
    + simpl. by rewrite B1'.
    + simpl. by rewrite B7.
    + simpl. by rewrite B1'.
  - rewrite C2. unfold m3.
    destruct (on_data_frame d (with_cursors (<[c := set_pos (_id d) cr]> (cursors w2)) w2))
      as (_ & _ & _ & _ & _ & _ & _ & _ & -> & _). simpl.
    rewrite list_lookup_insert_eq; [done|]. rewrite B2'. by eapply lookup_lt_Some.
Qed.

Lemma published_entry_is_delivered_witness :
  exists w1 w2 w3,
    step (Publish "foo" "m") tailing_channel = Some w1 /\
    step (PublishDone (length (pubs tailing_channel)) WriteOk) w1 = Some w2 /\
    step (CursorData 0) w2 = Some w3 /\
    log_of "t" (store w3)
    = log_of "t" (store tailing_channel)
      ++ [stored (next_id (store tailing_channel)) (event_doc "foo" "m")] /\
    trace w3
    = trace tailing_channel
      ++ routed (listeners (chan tailing_channel))
                (stored (next_id (store tailing_channel)) (event_doc "foo" "m")) /\
    (c_pos <$> cursors w3 !! 0%nat) = Some (next_id (store tailing_channel)).
Proof.
  apply (published_entry_is_delivered "foo" "m" tailing_channel 0 tailing_cursor "t").
  - vm_compute. reflexivity.
  - vm_compute. reflexivity.
  - vm_compute. reflexivity.
  - vm_compute. reflexivity.
  - vm_compute. reflexivity.
  - reflexivity.
  - reflexivity.
  - vm_compute. reflexivity.
  - vm_compute. reflexivity.
  - intros H. discriminate H.
Defined.

(** ** What deliveries call, and what a stream delivers *)

Lemma subscribers_In_inv cb ls : In cb (subscribers ls) -> In (LSub cb) ls.
Proof.
  induction ls as [|l ls IH]; [done|]. destruct l; simpl.
  - intros [->|H]; [by left | right; by apply IH].
  - intros H. right. by apply IH.
  - intros H. right. by apply IH.
Qed.

Lemma calls_In_inv o ev a ls :
  In o (calls ls ev a) -> In (o_event o, LSub (o_cb o)) ls.
Proof.
  unfold calls. intros H. apply in_map_iff in H as (cb & <- & Hcb). simpl.
  apply subscribers_In_inv in Hcb. unfold listeners_of in Hcb.
  apply in_map_iff in Hcb as ([e l] & El & Hin). simpl in El. subst l.
  apply filter_In in Hin as [Hin He]. unfold on_event in He. simpl in He.
  by apply String.eqb_eq in He as ->.
Qed.

Lemma emit_called o ev a w :
  In o (trace (emit ev a w)) ->
  In o (trace w) \/ In (o_event o, LSub (o_cb o)) (listeners (chan w)).
Proof.
  rewrite emit_trace. intros H. apply in_app_or in H as [H|H]; [by left|].
  right. by eapply calls_In_inv.
Qed.

Lemma emit_listeners_In x ev a w :
  In x (listeners (chan (emit ev a w))) -> In x (listeners (chan w)).
Proof. rewrite emit_listeners. unfold drop_once. intros H. by apply filter_In in H as [? _]. Qed.

Lemma on_data_listeners_In x d w :
  In x (listeners (chan (on_data d w))) -> In x (listeners (chan w)).
Proof.
  unfold on_data. destruct (closed (chan w) || destroyed (conn w)); [done|].
  destruct (event d); [|apply emit_listeners_In].
  destruct (has_event d); [|apply emit_listeners_In].
  destruct (throws _ _); [done|].
  intros H. by do 3 apply emit_listeners_In in H.
Qed.

Lemma on_data_called o d w :
  In o (trace (on_data d w)) ->
  In o (trace w) \/ In (o_event o, LSub (o_cb o)) (listeners (chan w)).
Proof.
  unfold on_data. destruct (closed (chan w) || destroyed (conn w)); [by left|].
  destruct (event d); [|apply emit_called].
  destruct (has_event d); [|apply emit_called].
  destruct (throws _ _); [by left|].
  intros H. apply emit_called in H as [H|H].
  - apply emit_called in H as [H|H].
    + by apply emit_called in H.
    + right. by apply emit_listeners_In in H.
  - right. by do 2 apply emit_listeners_In in H.
Qed.

(** X15: the deliveries of the stream call only callbacks that are
    subscribed, and each under the name it is subscribed to: whatever the
    documents delivered, every call added to the trace is a call of a
    callback registered under the event name of the call.  A callback that
    was never subscribed under a name, or whose only subscription was
    removed, is not called under it. *)
Theorem deliveries_call_subscribers_only (ds : list doc) (w : world) (o : obs) :
  In o (trace (deliver ds w)) ->
  In o (trace w) \/ In (o_event o, LSub (o_cb o)) (listeners (chan w)).
Proof.
  unfold deliver. revert w. induction ds as [|d ds IH]; intros w H; [by left|].
  simpl in H. apply IH in H as [H|H].
  - by apply (on_data_called o d w).
  - right. by apply (on_data_listeners_In _ d w).
Qed.

Lemma deliveries_call_subscribers_only_witness :
  In (call 7 "foo" "m1") (trace tailing_channel) \/
  In (o_event (call 7 "foo" "m1"), LSub (o_cb (call 7 "foo" "m1")))
     (listeners (chan tailing_channel)).
Proof.
  apply (deliveries_call_subscribers_only [doc_foo] tailing_channel).
  vm_compute. by left.
Defined.




